(** * HTTPRequestParser: the request ingestion core of libpion

    A shallow embedding of [src/src/HTTPRequestParser.cpp]: the header state
    machine [parseRequestHeaders], the form decoder [parseURLEncoded] and the
    two asio completion handlers [readHeaderBytes] and [readContentBytes].

    An octet is the integer value of a C++ [char]; a [std::string] is the list
    of its octets; member variables of the parser object are the fields of a
    record that every member function takes and returns. *)

From Stdlib Require Import String Ascii.
From Stdlib Require Import ZArith List Lia Bool.
Import ListNotations.
Open Scope Z_scope.

(** ** Octets and strings *)

Definition octet := Z.
Definition str := list octet.

Definition chr (a : ascii) : octet := Z.of_N (N_of_ascii a).
Definition bytes (s : string) : str := map chr (list_ascii_of_string s).

Definition HT : octet := 9.    (* '\t' *)
Definition LF : octet := 10.   (* '\n' *)
Definition CR : octet := 13.   (* '\r' *)
Definition SP : octet := chr " ".

Definition str_eqb (a b : str) : bool :=
  if list_eq_dec Z.eq_dec a b then true else false.

(** [std::string::push_back], [empty] and [size]. *)
Definition push_back (s : str) (c : octet) : str := s ++ [c].
Definition empty (s : str) : bool := match s with [] => true | _ => false end.
Definition size (s : str) : Z := Z.of_nat (length s).

(** ** Static members of HTTPRequestParser *)

Definition METHOD_MAX : Z := 1024.
Definition RESOURCE_MAX : Z := 256 * 1024.
Definition QUERY_STRING_MAX : Z := 1024 * 1024.
Definition HEADER_NAME_MAX : Z := 1024.
Definition HEADER_VALUE_MAX : Z := 1024 * 1024.
Definition QUERY_NAME_MAX : Z := 1024.
Definition QUERY_VALUE_MAX : Z := 1024 * 1024.
Definition POST_CONTENT_MAX : Z := 1024 * 1024.

(** ** ByteClassifier *)

(** Modelled from the spec: the inline predicates [isChar], [isControl],
    [isDigit] and [isSpecial] are declared in HTTPRequestParser.hpp, which is
    not among the sources; these follow section 4.1. *)
Definition isChar (c : octet) : bool := (0 <=? c) && (c <=? 127).
Definition isControl (c : octet) : bool := ((0 <=? c) && (c <=? 31)) || (c =? 127).
Definition isDigit (c : octet) : bool := (chr "0" <=? c) && (c <=? chr "9").
Definition isSpecial (c : octet) : bool :=
  existsb (Z.eqb c)
    [chr "("; chr ")"; chr "<"; chr ">"; chr "@"; chr ","; chr ";"; chr ":";
     chr "\"; 34 (* double quote *); chr "/"; chr "["; chr "]"; chr "?";
     chr "="; chr "{"; chr "}"; SP; HT].

(** The guard the source repeats wherever a token octet is required. *)
Definition not_token (c : octet) : bool :=
  negb (isChar c) || isControl c || isSpecial c.

(** ** RequestMessage *)

(** Modelled from the spec: [HTTPTypes::StringDictionary] is declared in
    HTTPTypes.hpp, which is not among the sources.  Section 3 describes a
    mapping that keeps duplicates as separate entries; the model is the list
    of inserted pairs, oldest first. *)
Definition StringDictionary := list (str * str).

Definition dict_insert (d : StringDictionary) (kv : str * str) : StringDictionary :=
  d ++ [kv].

Definition dict_find (d : StringDictionary) (key : str) : option str :=
  match find (fun kv => str_eqb (fst kv) key) d with
  | Some kv => Some (snd kv)
  | None => None
  end.

(** Modelled from the spec: class [HTTPRequest] is declared in
    HTTPRequest.hpp, which is not among the sources; the fields are those of
    section 3, the accessors are the ones the parser calls.  The version
    numbers are taken to be 32-bit unsigned. *)
Record HTTPRequest := mkHTTPRequest {
  method : str;
  resource : str;
  query_string : str;
  version_major : Z;
  version_minor : Z;
  headers : StringDictionary;
  query_params : StringDictionary;
  content_length : Z;
  body_buffer : list octet;
  is_valid : bool
}.

Definition UINT_MOD : Z := 2 ^ 32.

Definition setMethod (s : str) (r : HTTPRequest) : HTTPRequest :=
  mkHTTPRequest s (resource r) (query_string r) (version_major r) (version_minor r)
    (headers r) (query_params r) (content_length r) (body_buffer r) (is_valid r).
Definition setResource (s : str) (r : HTTPRequest) : HTTPRequest :=
  mkHTTPRequest (method r) s (query_string r) (version_major r) (version_minor r)
    (headers r) (query_params r) (content_length r) (body_buffer r) (is_valid r).
Definition setQueryString (s : str) (r : HTTPRequest) : HTTPRequest :=
  mkHTTPRequest (method r) (resource r) s (version_major r) (version_minor r)
    (headers r) (query_params r) (content_length r) (body_buffer r) (is_valid r).
Definition setVersionMajor (n : Z) (r : HTTPRequest) : HTTPRequest :=
  mkHTTPRequest (method r) (resource r) (query_string r) (n mod UINT_MOD) (version_minor r)
    (headers r) (query_params r) (content_length r) (body_buffer r) (is_valid r).
Definition setVersionMinor (n : Z) (r : HTTPRequest) : HTTPRequest :=
  mkHTTPRequest (method r) (resource r) (query_string r) (version_major r) (n mod UINT_MOD)
    (headers r) (query_params r) (content_length r) (body_buffer r) (is_valid r).
Definition addHeader (k v : str) (r : HTTPRequest) : HTTPRequest :=
  mkHTTPRequest (method r) (resource r) (query_string r) (version_major r) (version_minor r)
    (dict_insert (headers r) (k, v)) (query_params r) (content_length r)
    (body_buffer r) (is_valid r).
Definition setQueryParams (d : StringDictionary) (r : HTTPRequest) : HTTPRequest :=
  mkHTTPRequest (method r) (resource r) (query_string r) (version_major r) (version_minor r)
    (headers r) d (content_length r) (body_buffer r) (is_valid r).
Definition setContentLength (n : Z) (r : HTTPRequest) : HTTPRequest :=
  mkHTTPRequest (method r) (resource r) (query_string r) (version_major r) (version_minor r)
    (headers r) (query_params r) n (body_buffer r) (is_valid r).
Definition setPostContent (b : list octet) (r : HTTPRequest) : HTTPRequest :=
  mkHTTPRequest (method r) (resource r) (query_string r) (version_major r) (version_minor r)
    (headers r) (query_params r) (content_length r) b (is_valid r).
Definition setIsValid (b : bool) (r : HTTPRequest) : HTTPRequest :=
  mkHTTPRequest (method r) (resource r) (query_string r) (version_major r) (version_minor r)
    (headers r) (query_params r) (content_length r) (body_buffer r) b.

Definition hasHeader (key : str) (r : HTTPRequest) : bool :=
  match dict_find (headers r) key with Some _ => true | None => false end.
Definition getHeader (key : str) (r : HTTPRequest) : str :=
  match dict_find (headers r) key with Some v => v | None => [] end.

(** The octets [getPostContent()] .. [getPostContent() + getContentLength()]. *)
Definition getPostContent (r : HTTPRequest) : list octet :=
  firstn (Z.to_nat (content_length r)) (body_buffer r).

Definition HEADER_CONTENT_LENGTH : str := bytes "Content-Length".
Definition HEADER_CONTENT_TYPE : str := bytes "Content-Type".
Definition CONTENT_TYPE_URLENCODED : str := bytes "application/x-www-form-urlencoded".

(** A request as the reader holds it before the first octet: nothing set,
    not valid.  The constructor's version numbers are not in the sources;
    the machine assigns both before it can accept. *)
Definition new_request : HTTPRequest :=
  mkHTTPRequest [] [] [] 0 0 [] [] 0 [] false.

(** ** HeaderStateMachine *)

Inductive ParseState :=
| PARSE_METHOD_START | PARSE_METHOD | PARSE_URI_STEM | PARSE_URI_QUERY
| PARSE_HTTP_VERSION_H | PARSE_HTTP_VERSION_T_1 | PARSE_HTTP_VERSION_T_2
| PARSE_HTTP_VERSION_P | PARSE_HTTP_VERSION_SLASH
| PARSE_HTTP_VERSION_MAJOR_START | PARSE_HTTP_VERSION_MAJOR
| PARSE_HTTP_VERSION_MINOR_START | PARSE_HTTP_VERSION_MINOR
| PARSE_EXPECTING_NEWLINE | PARSE_EXPECTING_CR
| PARSE_HEADER_WHITESPACE | PARSE_HEADER_START | PARSE_HEADER_NAME
| PARSE_SPACE_BEFORE_HEADER_VALUE | PARSE_HEADER_VALUE
| PARSE_EXPECTING_FINAL_NEWLINE | PARSE_EXPECTING_FINAL_CR.

(** The member variables of the parser that [parseRequestHeaders] touches. *)
Record Parser := mkParser {
  m_parse_state : ParseState;
  m_method : str;
  m_resource : str;
  m_query_string : str;
  m_header_name : str;
  m_header_value : str;
  m_http_request : HTTPRequest
}.

Definition new_parser : Parser :=
  mkParser PARSE_METHOD_START [] [] [] [] [] new_request.

Definition goto (s : ParseState) (p : Parser) : Parser :=
  mkParser s (m_method p) (m_resource p) (m_query_string p)
    (m_header_name p) (m_header_value p) (m_http_request p).
Definition with_method (s : str) (p : Parser) : Parser :=
  mkParser (m_parse_state p) s (m_resource p) (m_query_string p)
    (m_header_name p) (m_header_value p) (m_http_request p).
Definition with_resource (s : str) (p : Parser) : Parser :=
  mkParser (m_parse_state p) (m_method p) s (m_query_string p)
    (m_header_name p) (m_header_value p) (m_http_request p).
Definition with_query_string (s : str) (p : Parser) : Parser :=
  mkParser (m_parse_state p) (m_method p) (m_resource p) s
    (m_header_name p) (m_header_value p) (m_http_request p).
Definition with_header_name (s : str) (p : Parser) : Parser :=
  mkParser (m_parse_state p) (m_method p) (m_resource p) (m_query_string p)
    s (m_header_value p) (m_http_request p).
Definition with_header_value (s : str) (p : Parser) : Parser :=
  mkParser (m_parse_state p) (m_method p) (m_resource p) (m_query_string p)
    (m_header_name p) s (m_http_request p).
Definition on_request (f : HTTPRequest -> HTTPRequest) (p : Parser) : Parser :=
  mkParser (m_parse_state p) (m_method p) (m_resource p) (m_query_string p)
    (m_header_name p) (m_header_value p) (f (m_http_request p)).

(** What one turn of the [switch] does with the octet at [*ptr]:
    [Next p'] falls out of the switch to the common [++ptr];
    [Return_true adv] is [return true], after [++ptr] when [adv] holds;
    [Return_false] is [return false].  Neither return changes a member. *)
Inductive Turn :=
| Next (p : Parser)
| Return_true (adv : bool)
| Return_false.

(** The first octet of a header name, shared by the four states that may
    begin one. *)
Definition begin_header_name (c : octet) (p : Parser) : Turn :=
  Next (goto PARSE_HEADER_NAME (with_header_name (push_back [] c) p)).

Definition literal (expected : octet) (next : ParseState) (c : octet) (p : Parser) : Turn :=
  if negb (c =? expected) then Return_false else Next (goto next p).

Definition turn (p : Parser) (c : octet) : Turn :=
  match m_parse_state p with
  | PARSE_METHOD_START =>
      if not_token c then Return_false
      else Next (with_method (push_back [] c) (goto PARSE_METHOD p))
  | PARSE_METHOD =>
      if c =? SP then
        Next (goto PARSE_URI_STEM
                (with_resource [] (on_request (setMethod (m_method p)) p)))
      else if not_token c then Return_false
      else if size (m_method p) >=? METHOD_MAX then Return_false
      else Next (with_method (push_back (m_method p) c) p)
  | PARSE_URI_STEM =>
      if c =? SP then
        Next (goto PARSE_HTTP_VERSION_H (on_request (setResource (m_resource p)) p))
      else if c =? chr "?" then
        Next (goto PARSE_URI_QUERY
                (with_query_string [] (on_request (setResource (m_resource p)) p)))
      else if isControl c then Return_false
      else if size (m_resource p) >=? RESOURCE_MAX then Return_false
      else Next (with_resource (push_back (m_resource p) c) p)
  | PARSE_URI_QUERY =>
      if c =? SP then
        Next (goto PARSE_HTTP_VERSION_H
                (on_request (setQueryString (m_query_string p)) p))
      else if isControl c then Return_false
      else if size (m_query_string p) >=? QUERY_STRING_MAX then Return_false
      else Next (with_query_string (push_back (m_query_string p) c) p)
  | PARSE_HTTP_VERSION_H => literal (chr "H") PARSE_HTTP_VERSION_T_1 c p
  | PARSE_HTTP_VERSION_T_1 => literal (chr "T") PARSE_HTTP_VERSION_T_2 c p
  | PARSE_HTTP_VERSION_T_2 => literal (chr "T") PARSE_HTTP_VERSION_P c p
  | PARSE_HTTP_VERSION_P => literal (chr "P") PARSE_HTTP_VERSION_SLASH c p
  | PARSE_HTTP_VERSION_SLASH => literal (chr "/") PARSE_HTTP_VERSION_MAJOR_START c p
  | PARSE_HTTP_VERSION_MAJOR_START =>
      if negb (isDigit c) then Return_false
      else Next (goto PARSE_HTTP_VERSION_MAJOR
                   (on_request (setVersionMajor (c - chr "0")) p))
  | PARSE_HTTP_VERSION_MAJOR =>
      if c =? chr "." then Next (goto PARSE_HTTP_VERSION_MINOR_START p)
      else if isDigit c then
        Next (on_request
                (setVersionMajor (version_major (m_http_request p) * 10 + (c - chr "0"))) p)
      else Return_false
  | PARSE_HTTP_VERSION_MINOR_START =>
      if negb (isDigit c) then Return_false
      else Next (goto PARSE_HTTP_VERSION_MINOR
                   (on_request (setVersionMinor (c - chr "0")) p))
  | PARSE_HTTP_VERSION_MINOR =>
      if c =? CR then Next (goto PARSE_EXPECTING_NEWLINE p)
      else if c =? LF then Next (goto PARSE_EXPECTING_CR p)
      else if isDigit c then
        Next (on_request
                (setVersionMinor (version_minor (m_http_request p) * 10 + (c - chr "0"))) p)
      else Return_false
  | PARSE_EXPECTING_NEWLINE =>
      if c =? LF then Next (goto PARSE_HEADER_START p)
      else if c =? CR then Return_true true
      else if (c =? HT) || (c =? SP) then Next (goto PARSE_HEADER_WHITESPACE p)
      else if not_token c then Return_false
      else begin_header_name c p
  | PARSE_EXPECTING_CR =>
      if c =? CR then Next (goto PARSE_HEADER_START p)
      else if c =? LF then Return_true true
      else if (c =? HT) || (c =? SP) then Next (goto PARSE_HEADER_WHITESPACE p)
      else if not_token c then Return_false
      else begin_header_name c p
  | PARSE_HEADER_WHITESPACE =>
      if c =? CR then Next (goto PARSE_EXPECTING_NEWLINE p)
      else if c =? LF then Next (goto PARSE_EXPECTING_CR p)
      else if negb (c =? HT) && negb (c =? SP) then
        if not_token c then Return_false else begin_header_name c p
      else Next p
  | PARSE_HEADER_START =>
      if c =? CR then Next (goto PARSE_EXPECTING_FINAL_NEWLINE p)
      else if c =? LF then Next (goto PARSE_EXPECTING_FINAL_CR p)
      else if (c =? HT) || (c =? SP) then Next (goto PARSE_HEADER_WHITESPACE p)
      else if not_token c then Return_false
      else begin_header_name c p
  | PARSE_HEADER_NAME =>
      if c =? chr ":" then
        Next (goto PARSE_SPACE_BEFORE_HEADER_VALUE (with_header_value [] p))
      else if not_token c then Return_false
      else if size (m_header_name p) >=? HEADER_NAME_MAX then Return_false
      else Next (with_header_name (push_back (m_header_name p) c) p)
  | PARSE_SPACE_BEFORE_HEADER_VALUE =>
      if c =? SP then Next (goto PARSE_HEADER_VALUE p)
      else if c =? CR then
        Next (goto PARSE_EXPECTING_NEWLINE
                (on_request (addHeader (m_header_name p) (m_header_value p)) p))
      else if c =? LF then
        Next (goto PARSE_EXPECTING_CR
                (on_request (addHeader (m_header_name p) (m_header_value p)) p))
      else if not_token c then Return_false
      else Next (goto PARSE_HEADER_VALUE
                   (with_header_value (push_back (m_header_value p) c) p))
  | PARSE_HEADER_VALUE =>
      if c =? CR then
        Next (goto PARSE_EXPECTING_NEWLINE
                (on_request (addHeader (m_header_name p) (m_header_value p)) p))
      else if c =? LF then
        Next (goto PARSE_EXPECTING_CR
                (on_request (addHeader (m_header_name p) (m_header_value p)) p))
      else if isControl c then Return_false
      else if size (m_header_value p) >=? HEADER_VALUE_MAX then Return_false
      else Next (with_header_value (push_back (m_header_value p) c) p)
  | PARSE_EXPECTING_FINAL_NEWLINE => Return_true (c =? LF)
  | PARSE_EXPECTING_FINAL_CR => Return_true (c =? CR)
  end.

Inductive tribool := tri_true | tri_false | indeterminate.

(** [parseRequestHeaders p buf] runs the [while (ptr < end)] loop over the
    [len] octets of [buf]; it returns the tribool, the number of octets by
    which [ptr] (passed by reference) has advanced, and the parser. *)
Fixpoint parseRequestHeaders (p : Parser) (buf : list octet) : tribool * nat * Parser :=
  match buf with
  | [] => (indeterminate, O, p)
  | c :: rest =>
      match turn p c with
      | Next p' =>
          let '(r, n, q) := parseRequestHeaders p' rest in (r, S n, q)
      | Return_true adv => (tri_true, if adv then 1%nat else O, p)
      | Return_false => (tri_false, O, p)
      end
  end.

(** Successive calls on the parts of a split stream, as [readHeaderBytes]
    and [readRequest] make them: the next part is fed only while the answer
    is indeterminate.  The count is the total over all calls. *)
Fixpoint feed (p : Parser) (parts : list (list octet)) : tribool * nat * Parser :=
  match parts with
  | [] => (indeterminate, O, p)
  | part :: more =>
      match parseRequestHeaders p part with
      | (indeterminate, n, q) =>
          let '(r, m, q') := feed q more in (r, (n + m)%nat, q')
      | res => res
      end
  end.

Definition byte_at_a_time (s : list octet) : list (list octet) :=
  map (fun c => [c]) s.

(** ** FormDecoder *)

Inductive QueryParseState := QUERY_PARSE_NAME | QUERY_PARSE_VALUE.

(** The local variables of [parseURLEncoded], with the dictionary it holds by
    reference. *)
Record QueryLocals := mkQueryLocals {
  parse_state : QueryParseState;
  query_name : str;
  query_value : str;
  dict : StringDictionary
}.

(** One turn of the [switch] of [parseURLEncoded]; [None] is [return false]. *)
Definition query_turn (l : QueryLocals) (c : octet) : option QueryLocals :=
  match parse_state l with
  | QUERY_PARSE_NAME =>
      if c =? chr "=" then
        if empty (query_name l) then None
        else Some (mkQueryLocals QUERY_PARSE_VALUE (query_name l) (query_value l) (dict l))
      else if c =? chr "&" then
        if empty (query_name l) then None
        else Some (mkQueryLocals QUERY_PARSE_NAME [] (query_value l)
                     (dict_insert (dict l) (query_name l, query_value l)))
      else if isControl c || (size (query_name l) >=? QUERY_NAME_MAX) then None
      else Some (mkQueryLocals QUERY_PARSE_NAME (push_back (query_name l) c)
                   (query_value l) (dict l))
  | QUERY_PARSE_VALUE =>
      if c =? chr "&" then
        Some (mkQueryLocals QUERY_PARSE_NAME [] []
                (dict_insert (dict l) (query_name l, query_value l)))
      else if isControl c || (size (query_value l) >=? QUERY_VALUE_MAX) then None
      else Some (mkQueryLocals QUERY_PARSE_VALUE (query_name l)
                   (push_back (query_value l) c) (dict l))
  end.

(** The [while (ptr < end)] loop: [false] with the locals as they stood at
    the octet that made the function return, or [true] with the locals at
    the end of the input. *)
Fixpoint query_loop (l : QueryLocals) (s : list octet) : bool * QueryLocals :=
  match s with
  | [] => (true, l)
  | c :: rest =>
      match query_turn l c with
      | None => (false, l)
      | Some l' => query_loop l' rest
      end
  end.

Definition query_start (d : StringDictionary) : QueryLocals :=
  mkQueryLocals QUERY_PARSE_NAME [] [] d.

(** [parseURLEncoded d s] returns the boolean and the dictionary, which the
    source updates in place and leaves as it is when it returns false. *)
Definition parseURLEncoded (d : StringDictionary) (s : list octet)
  : bool * StringDictionary :=
  match query_loop (query_start d) s with
  | (false, l) => (false, dict l)
  | (true, l) =>
      (true,
       if negb (empty (query_name l))
       then dict_insert (dict l) (query_name l, query_value l)
       else dict l)
  end.

(** The canonical encoding of a pair list: [name=value] joined by [&]. *)
Fixpoint encode (pairs : list (str * str)) : list octet :=
  match pairs with
  | [] => []
  | [(n, v)] => n ++ chr "=" :: v
  | (n, v) :: more => n ++ chr "=" :: v ++ chr "&" :: encode more
  end.

(** ** strtoul *)

(** The C library's [strtoul(s, 0, 10)] for a 64-bit [unsigned long]: white
    space, an optional sign, then the longest run of decimal digits; 0 when
    there is no digit, [ULONG_MAX] when the run is out of range, the negation
    modulo 2^64 after a minus sign. *)
Definition ULONG_MAX : Z := 2 ^ 64 - 1.

Definition isspace (c : octet) : bool := (c =? SP) || ((HT <=? c) && (c <=? CR)).

Fixpoint skip_space (s : str) : str :=
  match s with
  | c :: t => if isspace c then skip_space t else s
  | [] => []
  end.

Fixpoint digits_value (acc : Z) (s : str) : Z :=
  match s with
  | c :: t => if isDigit c then digits_value (acc * 10 + (c - chr "0")) t else acc
  | [] => acc
  end.

Definition unsigned_value (neg : bool) (s : str) : Z :=
  match s with
  | c :: _ =>
      if isDigit c then
        let v := digits_value 0 s in
        if v >? ULONG_MAX then ULONG_MAX
        else if neg then (- v) mod (ULONG_MAX + 1) else v
      else 0
  | [] => 0
  end.

Definition strtoul (s : str) : Z :=
  match skip_space s with
  | c :: t =>
      if c =? chr "-" then unsigned_value true t
      else if c =? chr "+" then unsigned_value false t
      else unsigned_value false (c :: t)
  | [] => 0
  end.

(** "Begins with an optional sign followed by a decimal digit, after optional
    leading white space." *)
Definition begins_with_number (s : str) : bool :=
  match skip_space s with
  | c :: t =>
      if (c =? chr "-") || (c =? chr "+")
      then match t with d :: _ => isDigit d | [] => false end
      else isDigit c
  | [] => false
  end.

(** ** RequestReader *)

(** A nonzero [boost::asio::error]. *)
Inductive asio_error := operation_aborted | other_error.

(** The calls the reader makes on its collaborators, in the order it makes
    them.  Logging is not modelled. *)
Inductive Call :=
| async_read_some                       (* readRequest(); completes in readHeaderBytes *)
| async_read (offset : Z) (count : Z)   (* exactly [count] octets to post_buffer + offset;
                                           completes in readContentBytes *)
| request_handler (r : HTTPRequest)     (* m_request_handler(m_http_request, m_tcp_conn) *)
| finish.                               (* m_tcp_conn->finish() *)

Definition handleReadError (e : asio_error) : list Call := [finish].

Definition replace_request (r : HTTPRequest) (p : Parser) : Parser :=
  on_request (fun _ => r) p.

(** The two decoding statements of [readContentBytes]. *)
Definition decodeQueryString (r : HTTPRequest) : HTTPRequest :=
  if negb (empty (query_string r))
  then setQueryParams (snd (parseURLEncoded (query_params r) (query_string r))) r
  else r.

Definition decodePostContent (r : HTTPRequest) : HTTPRequest :=
  if str_eqb (getHeader HEADER_CONTENT_TYPE r) CONTENT_TYPE_URLENCODED
  then setQueryParams (snd (parseURLEncoded (query_params r) (getPostContent r))) r
  else r.

(** The request after each statement of the completion sequence, from
    [setIsValid(true)] on; the handler receives the last one. *)
Definition completion_states (r : HTTPRequest) : list HTTPRequest :=
  let r1 := setIsValid true r in
  let r2 := decodeQueryString r1 in
  let r3 := decodePostContent r2 in
  [r1; r2; r3].

Definition completed (r : HTTPRequest) : HTTPRequest :=
  decodePostContent (decodeQueryString (setIsValid true r)).

Definition readContentBytes (read_error : option asio_error) (p : Parser)
    (bytes_read : Z) : Parser * list Call :=
  match read_error with
  | Some e => (p, handleReadError e)
  | None =>
      let r := completed (m_http_request p) in
      (replace_request r p, [request_handler r])
  end.

(** [memcpy(dst, src, n)] on buffers at least [n] long. *)
Definition memcpy (dst src : list octet) (n : Z) : list octet :=
  firstn (Z.to_nat n) src ++ skipn (Z.to_nat n) dst.

(** Modelled from the spec: [createPostContentBuffer] belongs to the absent
    class [HTTPRequest]; it allocates a buffer of exactly [content_length]
    octets.  What a new array holds is unspecified: [new_char n] stands for
    it. *)
Definition createPostContentBuffer (new_char : Z -> list octet) (r : HTTPRequest)
  : HTTPRequest :=
  setPostContent (new_char (content_length r)) r.

Definition declared_content_length (r : HTTPRequest) : Z :=
  if hasHeader HEADER_CONTENT_LENGTH r
  then strtoul (getHeader HEADER_CONTENT_LENGTH r)
  else 0.

(** The body branch of [readHeaderBytes]: the request with its post buffer,
    [post_buffer - getPostContent()] and [content_bytes_to_read] as they are
    when the [if (read_ptr < read_end)] statement is left.  [residual] is
    the octets from [read_ptr] to [read_end]; [read_ptr < read_end] holds
    when there is at least one. *)
Definition take_residual (new_char : Z -> list octet) (r : HTTPRequest)
    (content_length : Z) (residual : list octet) : HTTPRequest * Z * Z :=
  let r1 := createPostContentBuffer new_char (setContentLength content_length r) in
  match residual with
  | _ :: _ =>
      let bytes_left_in_read_buffer := Z.of_nat (length residual) mod UINT_MOD in
      if bytes_left_in_read_buffer >=? content_length then
        (setPostContent (memcpy (body_buffer r1) residual content_length) r1,
         0, 0)
      else
        (setPostContent (memcpy (body_buffer r1) residual bytes_left_in_read_buffer) r1,
         bytes_left_in_read_buffer, content_length - bytes_left_in_read_buffer)
  | [] => (r1, 0, content_length)
  end.

(** [readHeaderBytes]: [m_read_buffer] holds the [bytes_read] octets of the
    last read. *)
Definition readHeaderBytes (new_char : Z -> list octet)
    (read_error : option asio_error) (p : Parser) (m_read_buffer : list octet)
  : Parser * list Call :=
  match read_error with
  | Some e => (p, handleReadError e)
  | None =>
      let '(result, consumed, p1) := parseRequestHeaders p m_read_buffer in
      match result with
      | tri_true =>
          let content_length := declared_content_length (m_http_request p1) in
          if content_length =? 0 then readContentBytes read_error p1 0
          else
            let '(r, post_buffer, content_bytes_to_read) :=
              take_residual new_char (m_http_request p1) content_length
                (skipn consumed m_read_buffer) in
            (replace_request r p1,
             if negb (content_bytes_to_read =? 0)
             then [async_read post_buffer content_bytes_to_read]
             else [])
      | tri_false =>
          let r := setIsValid false (m_http_request p1) in
          (replace_request r p1, [request_handler r])
      | indeterminate => (p1, [async_read_some])
      end
  end.

(** ** Fields and their ceilings *)

Inductive Field :=
| F_method | F_resource | F_query_string | F_header_name | F_header_value
| F_query_name | F_query_value.

Definition ceiling (f : Field) : Z :=
  match f with
  | F_method => METHOD_MAX
  | F_resource => RESOURCE_MAX
  | F_query_string => QUERY_STRING_MAX
  | F_header_name => HEADER_NAME_MAX
  | F_header_value => HEADER_VALUE_MAX
  | F_query_name => QUERY_NAME_MAX
  | F_query_value => QUERY_VALUE_MAX
  end.

(** The octets a field may be made of without ending it or being refused for
    what they are. *)
Definition field_octet (f : Field) (c : octet) : bool :=
  match f with
  | F_method | F_header_name => negb (not_token c)
  | F_resource => negb (isControl c) && negb (c =? SP) && negb (c =? chr "?")
  | F_query_string => negb (isControl c) && negb (c =? SP)
  | F_header_value => negb (isControl c)
  | F_query_name => negb (isControl c) && negb (c =? chr "=") && negb (c =? chr "&")
  | F_query_value => negb (isControl c) && negb (c =? chr "&")
  end.

Definition CRLF : list octet := [CR; LF].

(** A well-formed input around the field content [w]. *)
Definition input_with (f : Field) (w : str) : list octet :=
  match f with
  | F_method => w ++ bytes " / HTTP/1.1" ++ CRLF ++ CRLF
  | F_resource => bytes "GET " ++ w ++ bytes " HTTP/1.1" ++ CRLF ++ CRLF
  | F_query_string => bytes "GET /?" ++ w ++ bytes " HTTP/1.1" ++ CRLF ++ CRLF
  | F_header_name =>
      bytes "GET / HTTP/1.1" ++ CRLF ++ w ++ bytes ": v" ++ CRLF ++ CRLF
  | F_header_value =>
      bytes "GET / HTTP/1.1" ++ CRLF ++ bytes "Host: " ++ w ++ CRLF ++ CRLF
  | F_query_name => w ++ bytes "=v"
  | F_query_value => bytes "n=" ++ w
  end.

Definition outcome_of_bool (b : bool) : tribool :=
  if b then tri_true else tri_false.

(** What the parser in charge of the field answers on a whole input. *)
Definition verdict (f : Field) (input : list octet) : tribool :=
  match f with
  | F_query_name | F_query_value => outcome_of_bool (fst (parseURLEncoded [] input))
  | _ => fst (fst (parseRequestHeaders new_parser input))
  end.

Definition S2_input : list octet :=
  bytes "GET /a HTTP/1.0" ++ LF :: bytes "Host: y" ++ [LF; LF].

(** ** Pair lists and their encoding *)

(** An octet that is neither [=], [&] nor a control byte. *)
Definition plain (c : octet) : bool :=
  negb (isControl c) && negb (c =? chr "=") && negb (c =? chr "&").

(** A pair with a non-empty name, both strings made of plain octets. *)
Definition plain_pair (nv : str * str) : Prop :=
  fst nv <> [] /\
  Forall (fun c => plain c = true) (fst nv) /\
  Forall (fun c => plain c = true) (snd nv).

Definition within_ceilings (nv : str * str) : Prop :=
  size (fst nv) <= QUERY_NAME_MAX /\ size (snd nv) <= QUERY_VALUE_MAX.

Definition long_name_pairs : list (str * str) :=
  [(repeat (chr "a") 1025, bytes "v")].

(** ** The two decoding phases of the completion sequence *)

Inductive Phase := URI_query | POST_content.

(** The guard of the phase's [if] statement on the request [r] that enters
    [readContentBytes]. *)
Definition phase_runs (ph : Phase) (r : HTTPRequest) : bool :=
  match ph with
  | URI_query => negb (empty (query_string r))
  | POST_content =>
      str_eqb (getHeader HEADER_CONTENT_TYPE r) CONTENT_TYPE_URLENCODED
  end.

(** The dictionary and the octets [parseURLEncoded] is called with. *)
Definition phase_dict (ph : Phase) (r : HTTPRequest) : StringDictionary :=
  match ph with
  | URI_query => query_params r
  | POST_content => query_params (decodeQueryString (setIsValid true r))
  end.

Definition phase_input (ph : Phase) (r : HTTPRequest) : list octet :=
  match ph with
  | URI_query => query_string r
  | POST_content => getPostContent r
  end.

(** The locals of [parseURLEncoded] once the octets [pre] are behind [ptr]. *)
Definition locals_after (d : StringDictionary) (pre : list octet) : QueryLocals :=
  snd (query_loop (query_start d) pre).

(** Two requests that differ at most in [query_params]. *)
Definition same_but_query_params (a b : HTTPRequest) : Prop :=
  method a = method b /\ resource a = resource b /\
  query_string a = query_string b /\
  version_major a = version_major b /\ version_minor a = version_minor b /\
  headers a = headers b /\ content_length a = content_length b /\
  body_buffer a = body_buffer b /\ is_valid a = is_valid b.

(** The fields the header machine commits. *)
Definition committed_fields (r : HTTPRequest)
  : str * str * str * Z * Z * StringDictionary :=
  (method r, resource r, query_string r, version_major r, version_minor r, headers r).

(** Scenario S3: a request line with a query string and no headers. *)
Definition S3_input : list octet :=
  bytes "GET /s?a=1&b=&c=2 HTTP/1.1" ++ CRLF ++ CRLF.

Definition S3_parser : Parser := snd (parseRequestHeaders new_parser S3_input).

(** A request refused in its version literal, after method and resource. *)
Definition S7_input : list octet :=
  bytes "GET / HXTP/1.1" ++ CRLF ++ CRLF.

(** Scenario S4 with a first read that ends three octets into the body. *)
Definition S4_headers : list octet :=
  bytes "POST /f HTTP/1.1" ++ CRLF ++
  bytes "Content-Length: 7" ++ CRLF ++
  bytes "Content-Type: application/x-www-form-urlencoded" ++ CRLF ++ CRLF.

Definition S4_first_read : list octet := S4_headers ++ bytes "k=v".

(** A request whose Content-Length is not a number. *)
Definition bad_length_input : list octet :=
  bytes "POST /f HTTP/1.1" ++ CRLF ++ bytes "Content-Length: abc" ++ CRLF ++ CRLF.

(** A request whose query string has a pair without a name after [a=1]. *)
Definition broken_query_request : HTTPRequest :=
  setQueryString (bytes "a=1&=2") new_request.

(** An allocator that hands out zeroed arrays. *)
Definition zero_filled (n : Z) : list octet := repeat 0 (Z.to_nat n).

(** ** What the header machine keeps true *)

(** A string made of octets the field admits, no longer than its ceiling. *)
Definition fits (f : Field) (s : str) : Prop :=
  Forall (fun c => field_octet f c = true) s /\ size s <= ceiling f.

Definition header_ok (nv : str * str) : Prop :=
  fst nv <> [] /\ fits F_header_name (fst nv) /\ fits F_header_value (snd nv).

Definition request_ok (r : HTTPRequest) : Prop :=
  fits F_method (method r) /\
  fits F_resource (resource r) /\
  fits F_query_string (query_string r) /\
  0 <= version_major r < UINT_MOD /\
  0 <= version_minor r < UINT_MOD /\
  Forall header_ok (headers r).

(** States in which a header name has been begun and not yet committed. *)
Definition in_header_line (s : ParseState) : bool :=
  match s with
  | PARSE_HEADER_NAME | PARSE_SPACE_BEFORE_HEADER_VALUE | PARSE_HEADER_VALUE => true
  | _ => false
  end.

(** States that are reached only through the space that ends the method. *)
Definition past_method (s : ParseState) : bool :=
  match s with
  | PARSE_METHOD_START | PARSE_METHOD => false
  | _ => true
  end.

(** States from which [parseRequestHeaders] can return true. *)
Definition accepting (s : ParseState) : bool :=
  match s with
  | PARSE_EXPECTING_NEWLINE | PARSE_EXPECTING_CR
  | PARSE_EXPECTING_FINAL_NEWLINE | PARSE_EXPECTING_FINAL_CR => true
  | _ => false
  end.

Definition parser_ok (p : Parser) : Prop :=
  fits F_method (m_method p) /\
  fits F_resource (m_resource p) /\
  fits F_query_string (m_query_string p) /\
  fits F_header_name (m_header_name p) /\
  fits F_header_value (m_header_value p) /\
  (m_parse_state p = PARSE_METHOD -> m_method p <> []) /\
  (in_header_line (m_parse_state p) = true -> m_header_name p <> []) /\
  (m_parse_state p = PARSE_SPACE_BEFORE_HEADER_VALUE -> m_header_value p = []) /\
  (past_method (m_parse_state p) = true -> method (m_http_request p) <> []) /\
  request_ok (m_http_request p).

(** ** Request heads and their wire form *)

(** The parts of a request line and header block, the version numbers as
    the digit strings that stand on the wire. *)
Record RequestHead := mkRequestHead {
  head_method : str;
  head_resource : str;
  head_query : option str;
  head_major : list octet;
  head_minor : list octet;
  head_headers : list (str * str)
}.

(** The four line terminators the machine takes: CRLF, LF, CR and LFCR. *)
Definition line_ends : list (list octet) := [[CR; LF]; [LF]; [CR]; [LF; CR]].

Definition decimal (ds : list octet) : Z :=
  fold_left (fun a c => a * 10 + (c - chr "0")) ds 0.

Definition header_line (eol : list octet) (nv : str * str) : list octet :=
  fst nv ++ chr ":" :: SP :: snd nv ++ eol.

Definition target (h : RequestHead) : list octet :=
  head_resource h ++
  match head_query h with Some q => chr "?" :: q | None => [] end.

Definition serialize (eol : list octet) (h : RequestHead) : list octet :=
  head_method h ++ SP :: target h ++ SP :: bytes "HTTP/" ++
  head_major h ++ chr "." :: head_minor h ++ eol ++
  concat (map (header_line eol) (head_headers h)) ++ eol.

Definition digits (ds : list octet) : Prop :=
  ds <> [] /\ Forall (fun c => isDigit c = true) ds.

Definition head_ok (h : RequestHead) : Prop :=
  head_method h <> [] /\ fits F_method (head_method h) /\
  fits F_resource (head_resource h) /\
  match head_query h with Some q => fits F_query_string q | None => True end /\
  digits (head_major h) /\ digits (head_minor h) /\
  Forall header_ok (head_headers h).

(** The request a fresh reader holds once the head has been parsed. *)
Definition request_of (h : RequestHead) : HTTPRequest :=
  mkHTTPRequest (head_method h) (head_resource h)
    (match head_query h with Some q => q | None => [] end)
    (decimal (head_major h) mod UINT_MOD) (decimal (head_minor h) mod UINT_MOD)
    (head_headers h) [] 0 [] false.

(** The state between two lines, by line terminator. *)
Definition line_start (eol : list octet) : ParseState :=
  match eol with
  | [c] => if c =? LF then PARSE_EXPECTING_CR else PARSE_EXPECTING_NEWLINE
  | _ => PARSE_HEADER_START
  end.

(** States in which a token octet begins a header name. *)
Definition name_start (s : ParseState) : bool :=
  match s with
  | PARSE_EXPECTING_NEWLINE | PARSE_EXPECTING_CR
  | PARSE_HEADER_WHITESPACE | PARSE_HEADER_START => true
  | _ => false
  end.

(** A space or a tab. *)
Definition blank (c : octet) : bool := (c =? HT) || (c =? SP).

(** The loop goes through all of [s], from parser [p] to parser [q]. *)
Definition runs (p : Parser) (s : list octet) (q : Parser) : Prop :=
  parseRequestHeaders p s = (indeterminate, length s, q).

Definition S1_head : RequestHead :=
  mkRequestHead (bytes "GET") (bytes "/") None (bytes "1") (bytes "1")
    [(bytes "Host", bytes "x")].

(** ** What the form decoder keeps true *)

(** A pair as [parseURLEncoded] commits it. *)
Definition pair_ok (nv : str * str) : Prop :=
  fst nv <> [] /\ fits F_query_name (fst nv) /\ fits F_query_value (snd nv).

Definition locals_ok (l : QueryLocals) : Prop :=
  fits F_query_name (query_name l) /\
  fits F_query_value (query_value l) /\
  (parse_state l = QUERY_PARSE_NAME -> query_value l = []) /\
  (parse_state l = QUERY_PARSE_VALUE -> query_name l <> []).

(** ** The read loop *)

(** [readRequest] and the completions that follow it while no error occurs:
    each element of [reads] is what one [async_read_some] delivers;
    [readHeaderBytes] runs on it, and the loop goes on as long as its only
    call is [readRequest] again.  With no read left the last
    [async_read_some] is pending. *)
Fixpoint read_loop (new_char : Z -> list octet) (p : Parser)
    (reads : list (list octet)) : Parser * list Call :=
  match reads with
  | [] => (p, [async_read_some])
  | buf :: more =>
      match readHeaderBytes new_char None p buf with
      | (p', [async_read_some]) => read_loop new_char p' more
      | res => res
      end
  end.

(** ** PionPlugin *)

Module PionPlugin.

(** A [void*]; [NULL] is 0. *)
Definition pointer := Z.
Definition NULL : pointer := 0.

Record PionPluginData := mkPionPluginData {
  m_lib_handle : pointer;
  m_create_func : pointer;
  m_destroy_func : pointer;
  m_plugin_name : str;
  m_references : Z
}.

(** The two constructors of [PionPluginData]. *)
Definition PionPluginData_default : PionPluginData :=
  mkPionPluginData NULL NULL NULL [] 0.
Definition PionPluginData_named (plugin_name : str) : PionPluginData :=
  mkPionPluginData NULL NULL NULL plugin_name 0.

(** A plug-in object: [m_plugin_data] points to shared data or is NULL
    ([None]).  The inline members only read through it. *)
Record PionPlugin := mkPionPlugin {
  m_plugin_data : option PionPluginData
}.

(** The default constructor. *)
Definition PionPlugin_default : PionPlugin := mkPionPlugin None.

Definition is_open (p : PionPlugin) : bool :=
  match m_plugin_data p with Some _ => true | None => false end.

Definition getPluginName (p : PionPlugin) : str :=
  match m_plugin_data p with Some d => m_plugin_name d | None => [] end.

Definition getCreateFunction (p : PionPlugin) : pointer :=
  match m_plugin_data p with Some d => m_create_func d | None => NULL end.

Definition getDestroyFunction (p : PionPlugin) : pointer :=
  match m_plugin_data p with Some d => m_destroy_func d | None => NULL end.

Inductive exception := PluginUndefinedException.

(** [PionPluginPtr::create] and [destroy]: the exception thrown, or the
    function that is called. *)
Definition create (p : PionPlugin) : exception + pointer :=
  let create_func := getCreateFunction p in
  if create_func =? NULL then inl PluginUndefinedException else inr create_func.

Definition destroy (p : PionPlugin) : exception + pointer :=
  let destroy_func := getDestroyFunction p in
  if destroy_func =? NULL then inl PluginUndefinedException else inr destroy_func.

End PionPlugin.

(** A POST whose query string and url-encoded body both carry pairs, as it
    stands when the body has been read. *)
Definition merge_request : HTTPRequest :=
  mkHTTPRequest (bytes "POST") (bytes "/f") (bytes "a=1") 1 1
    [(HEADER_CONTENT_LENGTH, bytes "7");
     (HEADER_CONTENT_TYPE, CONTENT_TYPE_URLENCODED)]
    [] 7 (bytes "k=v&x=y") false.

(** * Properties *)

(** ** The header state machine is resumable *)

Lemma parse_app (a b : list octet) : forall p,
  parseRequestHeaders p (a ++ b) =
  match parseRequestHeaders p a with
  | (indeterminate, n, q) =>
      let '(r, m, q') := parseRequestHeaders q b in (r, (n + m)%nat, q')
  | res => res
  end.
Proof.
  induction a as [|c a IH]; intros p; simpl.
  - destruct (parseRequestHeaders p b) as [[r m] q']; reflexivity.
  - destruct (turn p c) as [p'| adv |]; try reflexivity.
    rewrite IH.
    destruct (parseRequestHeaders p' a) as [[[] n] q]; try reflexivity.
    destruct (parseRequestHeaders q b) as [[r m] q']; reflexivity.
Qed.

Lemma feed_concat (parts : list (list octet)) : forall p,
  feed p parts = parseRequestHeaders p (concat parts).
Proof.
  induction parts as [|part more IH]; intros p; simpl.
  - reflexivity.
  - rewrite parse_app.
    destruct (parseRequestHeaders p part) as [[[] n] q]; try reflexivity.
    rewrite IH. reflexivity.
Qed.

Lemma concat_byte_at_a_time (s : list octet) : concat (byte_at_a_time s) = s.
Proof.
  induction s as [|c s IH]; simpl; [reflexivity | now rewrite IH].
Qed.

(** [ptr] never passes [end]; it reaches it when the answer is indeterminate. *)
Lemma consumed_le (s : list octet) : forall p r n q,
  parseRequestHeaders p s = (r, n, q) -> (n <= length s)%nat.
Proof.
  induction s as [|c s IH]; intros p r n q; simpl.
  - intros [= _ <- _]. lia.
  - destruct (turn p c) as [p'| adv |].
    + destruct (parseRequestHeaders p' s) as [[r' n'] q'] eqn:E.
      intros [= _ <- _]. apply IH in E. lia.
    + intros [= _ <- _]. destruct adv; lia.
    + intros [= _ <- _]. lia.
Qed.

Lemma indeterminate_consumes_all (s : list octet) : forall p n q,
  parseRequestHeaders p s = (indeterminate, n, q) -> n = length s.
Proof.
  induction s as [|c s IH]; intros p n q; simpl.
  - intros [= <- _]. reflexivity.
  - destruct (turn p c) as [p'| adv |]; try discriminate.
    destruct (parseRequestHeaders p' s) as [[r' n'] q'] eqn:E.
    intros [= -> <- _]. apply IH in E. now subst.
Qed.

(** A prefix of an accepted stream is never refused. *)
Lemma prefix_of_accepted (P T : list octet) : forall p k q,
  parseRequestHeaders p (P ++ T) = (tri_true, k, q) ->
  exists r n q',
    parseRequestHeaders p P = (r, n, q') /\
    (r = indeterminate \/ (r = tri_true /\ (n <= length P)%nat)).
Proof.
  intros p k q H. rewrite parse_app in H.
  destruct (parseRequestHeaders p P) as [[r n] q'] eqn:E.
  exists r, n, q'. split; [reflexivity|].
  destruct r.
  - right. split; [reflexivity | eapply consumed_le; eassumption].
  - discriminate.
  - now left.
Qed.

(** C1: feeding the parts of any partition of a byte sequence in order,
    the parser state persisting between the calls, gives the same answer,
    the same total of consumed octets and the same parser (hence the same
    committed method, resource, query string, version and headers) as
    feeding the whole sequence in one call. *)
Theorem partition_invariance (p : Parser) (parts : list (list octet)) :
  feed p parts = parseRequestHeaders p (concat parts).
Proof. apply feed_concat. Qed.

(** C2: if a fresh machine accepts [B], then feeding any prefix [P] of [B]
    one octet per call to a fresh machine ends indeterminate (more octets
    needed) or accepts with at most [|P|] octets consumed; it is never
    refused. *)
Theorem prefix_never_rejected (B P T : list octet) (k : nat) (q : Parser) :
  parseRequestHeaders new_parser B = (tri_true, k, q) ->
  B = P ++ T ->
  exists r n q',
    feed new_parser (byte_at_a_time P) = (r, n, q') /\
    (r = indeterminate \/ (r = tri_true /\ (n <= length P)%nat)).
Proof.
  intros H ->. rewrite feed_concat, concat_byte_at_a_time.
  eapply prefix_of_accepted; eassumption.
Qed.

Lemma prefix_never_rejected_witness :
  exists r n q',
    feed new_parser (byte_at_a_time (bytes "GET /a HTTP/1.0")) = (r, n, q') /\
    (r = indeterminate \/ (r = tri_true /\ (n <= length (bytes "GET /a HTTP/1.0"))%nat)).
Proof.
  apply (prefix_never_rejected S2_input (bytes "GET /a HTTP/1.0")
           (LF :: bytes "Host: y" ++ [LF; LF]) (length S2_input)
           (mkParser PARSE_EXPECTING_CR (bytes "GET") (bytes "/a") [] (bytes "Host")
              (bytes "y")
              (mkHTTPRequest (bytes "GET") (bytes "/a") [] 1 0
                 [(bytes "Host", bytes "y")] [] 0 [] false))).
  - vm_compute. reflexivity.
  - reflexivity.
Defined.

(** C8: the bare-LF request [GET /a HTTP/1.0\nHost: y\n\n] is accepted by a
    fresh machine with every octet consumed; the request then has method
    [GET], resource [/a], version 1.0, the single header [Host: y] and an
    empty query string. *)
Theorem S2_bare_LF :
  exists q,
    parseRequestHeaders new_parser S2_input = (tri_true, length S2_input, q) /\
    method (m_http_request q) = bytes "GET" /\
    resource (m_http_request q) = bytes "/a" /\
    version_major (m_http_request q) = 1 /\
    version_minor (m_http_request q) = 0 /\
    headers (m_http_request q) = [(bytes "Host", bytes "y")] /\
    query_string (m_http_request q) = [].
Proof.
  eexists. split; [vm_compute; reflexivity|].
  repeat split.
Qed.

(** ** Size ceilings *)

Lemma size_push_back (s : str) (c : octet) : size (push_back s c) = size s + 1.
Proof. unfold size, push_back. rewrite length_app. simpl. lia. Qed.

Lemma size_cons (c : octet) (s : str) : size (c :: s) = size s + 1.
Proof. unfold size. simpl length. lia. Qed.

Lemma size_nonneg (s : str) : 0 <= size s.
Proof. unfold size. lia. Qed.

Lemma outcome_after (a b : list octet) (p q : Parser) :
  parseRequestHeaders p a = (indeterminate, length a, q) ->
  fst (fst (parseRequestHeaders p (a ++ b))) = fst (fst (parseRequestHeaders q b)).
Proof.
  intros H. rewrite parse_app, H.
  destruct (parseRequestHeaders q b) as [[r m] q']. reflexivity.
Qed.

(** A state that appends the octets of one field to one scratch string,
    checking the ceiling before each append. *)
Section Accumulate.
Variable st : ParseState.
Variable get : Parser -> str.
Variable set : str -> Parser -> Parser.
Variable max : Z.
Variable ok : octet -> bool.

Hypothesis set_keeps_state : forall s p, m_parse_state (set s p) = m_parse_state p.
Hypothesis get_set : forall s p, get (set s p) = s.
Hypothesis set_set : forall s s' p, set s (set s' p) = set s p.
Hypothesis set_get : forall p, set (get p) p = p.
Hypothesis turn_append : forall p c,
  m_parse_state p = st -> ok c = true -> size (get p) < max ->
  turn p c = Next (set (push_back (get p) c) p).
Hypothesis turn_full : forall p c,
  m_parse_state p = st -> ok c = true -> max <= size (get p) ->
  turn p c = Return_false.

Lemma accumulate_run (w : str) : forall p,
  m_parse_state p = st ->
  Forall (fun c => ok c = true) w ->
  size (get p) + size w <= max ->
  parseRequestHeaders p w = (indeterminate, length w, set (get p ++ w) p).
Proof using set_keeps_state get_set set_set set_get turn_append.
  induction w as [|c w IH]; intros p Hst Hok Hsz.
  - simpl. now rewrite app_nil_r, set_get.
  - pose proof (Forall_inv Hok) as Hc; cbv beta in Hc.
    pose proof (Forall_inv_tail Hok) as Hw.
    rewrite size_cons in Hsz. pose proof (size_nonneg w).
    simpl. rewrite turn_append by (assumption || lia).
    rewrite IH.
    + rewrite get_set, set_set. unfold push_back.
      now rewrite <- app_assoc.
    + now rewrite set_keeps_state.
    + assumption.
    + rewrite get_set, size_push_back. lia.
Qed.

Lemma accumulate_overrun (w : str) : forall p rest,
  m_parse_state p = st ->
  Forall (fun c => ok c = true) w ->
  max < size (get p) + size w ->
  size (get p) <= max ->
  fst (fst (parseRequestHeaders p (w ++ rest))) = tri_false.
Proof using set_keeps_state get_set turn_append turn_full.
  induction w as [|c w IH]; intros p rest Hst Hok Hsz Hle.
  - unfold size in Hsz at 2. simpl in Hsz. lia.
  - pose proof (Forall_inv Hok) as Hc; cbv beta in Hc.
    pose proof (Forall_inv_tail Hok) as Hw.
    rewrite size_cons in Hsz. simpl.
    destruct (Z_lt_le_dec (size (get p)) max) as [Hlt|Hge].
    + rewrite turn_append by assumption.
      specialize (IH (set (push_back (get p) c) p) rest).
      rewrite set_keeps_state, get_set, size_push_back in IH.
      destruct (parseRequestHeaders _ (w ++ rest)) as [[r n] q].
      cbn [fst] in *. apply IH; (assumption || lia).
    + now rewrite turn_full.
Qed.
End Accumulate.

(** What the field predicates exclude. *)
Lemma token_neq (c x : octet) :
  not_token c = false -> isSpecial x = true -> (c =? x) = false.
Proof.
  intros Hc Hx. destruct (Z.eqb_spec c x) as [->|]; [|reflexivity].
  unfold not_token in Hc. rewrite Hx in Hc.
  now rewrite orb_true_r in Hc.
Qed.

Lemma control_neq (c x : octet) :
  isControl c = false -> isControl x = true -> (c =? x) = false.
Proof.
  intros Hc Hx. destruct (Z.eqb_spec c x) as [->|]; congruence.
Qed.

Lemma geb_false (a b : Z) : a < b -> (a >=? b) = false.
Proof. intros. rewrite Z.geb_leb. now apply Z.leb_gt. Qed.

Lemma geb_true (a b : Z) : b <= a -> (a >=? b) = true.
Proof. intros. rewrite Z.geb_leb. now apply Z.leb_le. Qed.

Lemma token_parts (c : octet) :
  not_token c = false ->
  isChar c = true /\ isControl c = false /\ isSpecial c = false.
Proof.
  unfold not_token. intros H.
  apply orb_false_elim in H as [H Hs]. apply orb_false_elim in H as [Hc Hk].
  apply negb_false_iff in Hc. auto.
Qed.

Ltac field_facts :=
  repeat match goal with
  | H : field_octet _ _ = true |- _ =>
      unfold field_octet in H;
      repeat (apply andb_prop in H; destruct H as [H ?])
  | H : negb _ = true |- _ => apply negb_true_iff in H
  end;
  try match goal with
  | H : not_token ?c = false |- _ =>
      let Hc := fresh "Hchar" in
      let Hk := fresh "Hctl" in
      let Hs := fresh "Hspec" in
      destruct (token_parts c H) as (Hc & Hk & Hs)
  end.

Ltac turn_step :=
  unfold turn, begin_header_name;
  match goal with
  | H : m_parse_state _ = _ |- _ => rewrite H
  | _ => cbn [m_parse_state]
  end;
  repeat first
    [ rewrite geb_false by assumption
    | rewrite geb_true by assumption
    | match goal with H : _ = false |- _ => rewrite H end
    | rewrite (token_neq _ SP) by (assumption || reflexivity)
    | rewrite (token_neq _ HT) by (assumption || reflexivity)
    | rewrite (token_neq _ (chr ":")) by (assumption || reflexivity)
    | rewrite (control_neq _ CR) by (assumption || reflexivity)
    | rewrite (control_neq _ LF) by (assumption || reflexivity) ];
  cbn [orb andb negb];
  try reflexivity.

Ltac record_laws :=
  try (intros ? ? q; destruct q; reflexivity);
  try (intros ? q; destruct q; reflexivity);
  try (intros q; destruct q; reflexivity).

Lemma method_run (w : str) (p : Parser) :
  m_parse_state p = PARSE_METHOD ->
  Forall (fun c => field_octet F_method c = true) w ->
  size (m_method p) + size w <= METHOD_MAX ->
  parseRequestHeaders p w = (indeterminate, length w, with_method (m_method p ++ w) p).
Proof.
  apply (accumulate_run PARSE_METHOD m_method with_method METHOD_MAX
           (field_octet F_method)); record_laws.
  intros q c Hst Hc Hsz. field_facts. turn_step.
Qed.

Lemma method_overrun (w : str) (p : Parser) (rest : list octet) :
  m_parse_state p = PARSE_METHOD ->
  Forall (fun c => field_octet F_method c = true) w ->
  METHOD_MAX < size (m_method p) + size w ->
  size (m_method p) <= METHOD_MAX ->
  fst (fst (parseRequestHeaders p (w ++ rest))) = tri_false.
Proof.
  apply (accumulate_overrun PARSE_METHOD m_method with_method METHOD_MAX
           (field_octet F_method)); record_laws;
    intros q c Hst Hc Hsz; field_facts; turn_step.
Qed.

Lemma resource_run (w : str) (p : Parser) :
  m_parse_state p = PARSE_URI_STEM ->
  Forall (fun c => field_octet F_resource c = true) w ->
  size (m_resource p) + size w <= RESOURCE_MAX ->
  parseRequestHeaders p w =
  (indeterminate, length w, with_resource (m_resource p ++ w) p).
Proof.
  apply (accumulate_run PARSE_URI_STEM m_resource with_resource RESOURCE_MAX
           (field_octet F_resource)); record_laws.
  intros q c Hst Hc Hsz. field_facts. turn_step.
Qed.

Lemma resource_overrun (w : str) (p : Parser) (rest : list octet) :
  m_parse_state p = PARSE_URI_STEM ->
  Forall (fun c => field_octet F_resource c = true) w ->
  RESOURCE_MAX < size (m_resource p) + size w ->
  size (m_resource p) <= RESOURCE_MAX ->
  fst (fst (parseRequestHeaders p (w ++ rest))) = tri_false.
Proof.
  apply (accumulate_overrun PARSE_URI_STEM m_resource with_resource RESOURCE_MAX
           (field_octet F_resource)); record_laws;
    intros q c Hst Hc Hsz; field_facts; turn_step.
Qed.

Lemma query_string_run (w : str) (p : Parser) :
  m_parse_state p = PARSE_URI_QUERY ->
  Forall (fun c => field_octet F_query_string c = true) w ->
  size (m_query_string p) + size w <= QUERY_STRING_MAX ->
  parseRequestHeaders p w =
  (indeterminate, length w, with_query_string (m_query_string p ++ w) p).
Proof.
  apply (accumulate_run PARSE_URI_QUERY m_query_string with_query_string
           QUERY_STRING_MAX (field_octet F_query_string)); record_laws.
  intros q c Hst Hc Hsz. field_facts. turn_step.
Qed.

Lemma query_string_overrun (w : str) (p : Parser) (rest : list octet) :
  m_parse_state p = PARSE_URI_QUERY ->
  Forall (fun c => field_octet F_query_string c = true) w ->
  QUERY_STRING_MAX < size (m_query_string p) + size w ->
  size (m_query_string p) <= QUERY_STRING_MAX ->
  fst (fst (parseRequestHeaders p (w ++ rest))) = tri_false.
Proof.
  apply (accumulate_overrun PARSE_URI_QUERY m_query_string with_query_string
           QUERY_STRING_MAX (field_octet F_query_string)); record_laws;
    intros q c Hst Hc Hsz; field_facts; turn_step.
Qed.

Lemma header_name_run (w : str) (p : Parser) :
  m_parse_state p = PARSE_HEADER_NAME ->
  Forall (fun c => field_octet F_header_name c = true) w ->
  size (m_header_name p) + size w <= HEADER_NAME_MAX ->
  parseRequestHeaders p w =
  (indeterminate, length w, with_header_name (m_header_name p ++ w) p).
Proof.
  apply (accumulate_run PARSE_HEADER_NAME m_header_name with_header_name
           HEADER_NAME_MAX (field_octet F_header_name)); record_laws.
  intros q c Hst Hc Hsz. field_facts. turn_step.
Qed.

Lemma header_name_overrun (w : str) (p : Parser) (rest : list octet) :
  m_parse_state p = PARSE_HEADER_NAME ->
  Forall (fun c => field_octet F_header_name c = true) w ->
  HEADER_NAME_MAX < size (m_header_name p) + size w ->
  size (m_header_name p) <= HEADER_NAME_MAX ->
  fst (fst (parseRequestHeaders p (w ++ rest))) = tri_false.
Proof.
  apply (accumulate_overrun PARSE_HEADER_NAME m_header_name with_header_name
           HEADER_NAME_MAX (field_octet F_header_name)); record_laws;
    intros q c Hst Hc Hsz; field_facts; turn_step.
Qed.

Lemma header_value_run (w : str) (p : Parser) :
  m_parse_state p = PARSE_HEADER_VALUE ->
  Forall (fun c => field_octet F_header_value c = true) w ->
  size (m_header_value p) + size w <= HEADER_VALUE_MAX ->
  parseRequestHeaders p w =
  (indeterminate, length w, with_header_value (m_header_value p ++ w) p).
Proof.
  apply (accumulate_run PARSE_HEADER_VALUE m_header_value with_header_value
           HEADER_VALUE_MAX (field_octet F_header_value)); record_laws.
  intros q c Hst Hc Hsz. field_facts. turn_step.
Qed.

Lemma header_value_overrun (w : str) (p : Parser) (rest : list octet) :
  m_parse_state p = PARSE_HEADER_VALUE ->
  Forall (fun c => field_octet F_header_value c = true) w ->
  HEADER_VALUE_MAX < size (m_header_value p) + size w ->
  size (m_header_value p) <= HEADER_VALUE_MAX ->
  fst (fst (parseRequestHeaders p (w ++ rest))) = tri_false.
Proof.
  apply (accumulate_overrun PARSE_HEADER_VALUE m_header_value with_header_value
           HEADER_VALUE_MAX (field_octet F_header_value)); record_laws;
    intros q c Hst Hc Hsz; field_facts; turn_step.
Qed.

(** ** The form decoder on one field *)

Lemma query_loop_app (a b : list octet) : forall l,
  query_loop l (a ++ b) =
  match query_loop l a with
  | (true, l') => query_loop l' b
  | res => res
  end.
Proof.
  induction a as [|c a IH]; intros l; simpl.
  - reflexivity.
  - destruct (query_turn l c) as [l'|]; [apply IH | reflexivity].
Qed.

Lemma query_name_run (w : str) : forall n v d,
  Forall (fun c => field_octet F_query_name c = true) w ->
  size n + size w <= QUERY_NAME_MAX ->
  query_loop (mkQueryLocals QUERY_PARSE_NAME n v d) w =
  (true, mkQueryLocals QUERY_PARSE_NAME (n ++ w) v d).
Proof.
  induction w as [|c w IH]; intros n v d Hok Hsz.
  - simpl. now rewrite app_nil_r.
  - pose proof (Forall_inv Hok) as Hc; cbv beta in Hc.
    pose proof (Forall_inv_tail Hok) as Hw.
    rewrite size_cons in Hsz. pose proof (size_nonneg w).
    field_facts. simpl. unfold query_turn. cbn [parse_state query_name].
    repeat match goal with H : _ = false |- _ => rewrite H end.
    rewrite geb_false by lia. cbn [orb].
    rewrite IH; [|assumption|rewrite size_push_back; lia].
    unfold push_back. now rewrite <- app_assoc.
Qed.

Lemma query_name_overrun (w : str) : forall n v d rest,
  Forall (fun c => field_octet F_query_name c = true) w ->
  QUERY_NAME_MAX < size n + size w ->
  size n <= QUERY_NAME_MAX ->
  fst (query_loop (mkQueryLocals QUERY_PARSE_NAME n v d) (w ++ rest)) = false.
Proof.
  induction w as [|c w IH]; intros n v d rest Hok Hsz Hle.
  - unfold size in Hsz at 2. simpl in Hsz. lia.
  - pose proof (Forall_inv Hok) as Hc; cbv beta in Hc.
    pose proof (Forall_inv_tail Hok) as Hw.
    rewrite size_cons in Hsz.
    field_facts. simpl. unfold query_turn. cbn [parse_state query_name].
    repeat match goal with H : _ = false |- _ => rewrite H end.
    destruct (Z_lt_le_dec (size n) QUERY_NAME_MAX) as [Hlt|Hge].
    + rewrite geb_false by assumption. cbn [orb].
      apply IH; [assumption| |]; rewrite size_push_back; lia.
    + rewrite geb_true by assumption. reflexivity.
Qed.

Lemma query_value_run (w : str) : forall n v d,
  Forall (fun c => field_octet F_query_value c = true) w ->
  size v + size w <= QUERY_VALUE_MAX ->
  query_loop (mkQueryLocals QUERY_PARSE_VALUE n v d) w =
  (true, mkQueryLocals QUERY_PARSE_VALUE n (v ++ w) d).
Proof.
  induction w as [|c w IH]; intros n v d Hok Hsz.
  - simpl. now rewrite app_nil_r.
  - pose proof (Forall_inv Hok) as Hc; cbv beta in Hc.
    pose proof (Forall_inv_tail Hok) as Hw.
    rewrite size_cons in Hsz. pose proof (size_nonneg w).
    field_facts. simpl. unfold query_turn. cbn [parse_state query_value].
    repeat match goal with H : _ = false |- _ => rewrite H end.
    rewrite geb_false by lia. cbn [orb].
    rewrite IH; [|assumption|rewrite size_push_back; lia].
    unfold push_back. now rewrite <- app_assoc.
Qed.

Lemma query_value_overrun (w : str) : forall n v d rest,
  Forall (fun c => field_octet F_query_value c = true) w ->
  QUERY_VALUE_MAX < size v + size w ->
  size v <= QUERY_VALUE_MAX ->
  fst (query_loop (mkQueryLocals QUERY_PARSE_VALUE n v d) (w ++ rest)) = false.
Proof.
  induction w as [|c w IH]; intros n v d rest Hok Hsz Hle.
  - unfold size in Hsz at 2. simpl in Hsz. lia.
  - pose proof (Forall_inv Hok) as Hc; cbv beta in Hc.
    pose proof (Forall_inv_tail Hok) as Hw.
    rewrite size_cons in Hsz.
    field_facts. simpl. unfold query_turn. cbn [parse_state query_value].
    repeat match goal with H : _ = false |- _ => rewrite H end.
    destruct (Z_lt_le_dec (size v) QUERY_VALUE_MAX) as [Hlt|Hge].
    + rewrite geb_false by assumption. cbn [orb].
      apply IH; [assumption| |]; rewrite size_push_back; lia.
    + rewrite geb_true by assumption. reflexivity.
Qed.

Ltac size_arith :=
  cbn -[Z.add size];
  unfold size, METHOD_MAX, RESOURCE_MAX, QUERY_STRING_MAX, HEADER_NAME_MAX,
    HEADER_VALUE_MAX, QUERY_NAME_MAX, QUERY_VALUE_MAX in *;
  cbn [length] in *; lia.

Lemma outcome_cons (p p' : Parser) (c : octet) (s : list octet) :
  turn p c = Next p' ->
  fst (fst (parseRequestHeaders p (c :: s))) = fst (fst (parseRequestHeaders p' s)).
Proof.
  intros H. simpl. rewrite H.
  destruct (parseRequestHeaders p' s) as [[r n] q]. reflexivity.
Qed.

Lemma Forall_repeat (ok : octet -> bool) (c : octet) (n : nat) :
  ok c = true -> Forall (fun x => ok x = true) (repeat c n).
Proof.
  intros H. apply Forall_forall. intros x Hx.
  apply repeat_spec in Hx. now subst.
Qed.

Lemma method_boundary (w : str) :
  Forall (fun c => field_octet F_method c = true) w ->
  (size w = METHOD_MAX -> verdict F_method (input_with F_method w) = tri_true) /\
  (size w = METHOD_MAX + 1 -> verdict F_method (input_with F_method w) = tri_false).
Proof.
  intros Hok. destruct w as [|c w]; [split; discriminate|].
  pose proof (Forall_inv Hok) as Hc; cbv beta in Hc.
  pose proof (Forall_inv_tail Hok) as Hw.
  assert (Hturn : turn new_parser c =
                  Next (with_method (push_back [] c) (goto PARSE_METHOD new_parser))).
  { field_facts. unfold turn. cbn [m_parse_state new_parser].
    match goal with H : not_token c = false |- _ => now rewrite H end. }
  unfold verdict, input_with. rewrite <- app_comm_cons.
  rewrite (outcome_cons _ _ _ _ Hturn), size_cons.
  split; intros Hsz.
  - erewrite outcome_after
      by (apply method_run; [reflexivity | assumption | size_arith]).
    vm_compute. reflexivity.
  - apply method_overrun; [reflexivity | assumption | |];
      size_arith.
Qed.

Ltac after_prefix := erewrite outcome_after by (vm_compute; reflexivity).

Lemma resource_boundary (w : str) :
  Forall (fun c => field_octet F_resource c = true) w ->
  (size w = RESOURCE_MAX -> verdict F_resource (input_with F_resource w) = tri_true) /\
  (size w = RESOURCE_MAX + 1 ->
   verdict F_resource (input_with F_resource w) = tri_false).
Proof.
  intros Hok. unfold verdict, input_with. after_prefix.
  split; intros Hsz.
  - erewrite outcome_after
      by (apply resource_run; [reflexivity | assumption | size_arith]).
    vm_compute. reflexivity.
  - apply resource_overrun; [reflexivity | assumption | |];
      size_arith.
Qed.

Lemma query_string_boundary (w : str) :
  Forall (fun c => field_octet F_query_string c = true) w ->
  (size w = QUERY_STRING_MAX ->
   verdict F_query_string (input_with F_query_string w) = tri_true) /\
  (size w = QUERY_STRING_MAX + 1 ->
   verdict F_query_string (input_with F_query_string w) = tri_false).
Proof.
  intros Hok. unfold verdict, input_with. after_prefix.
  split; intros Hsz.
  - erewrite outcome_after
      by (apply query_string_run; [reflexivity | assumption | size_arith]).
    vm_compute. reflexivity.
  - apply query_string_overrun; [reflexivity | assumption | |];
      size_arith.
Qed.

Lemma header_value_boundary (w : str) :
  Forall (fun c => field_octet F_header_value c = true) w ->
  (size w = HEADER_VALUE_MAX ->
   verdict F_header_value (input_with F_header_value w) = tri_true) /\
  (size w = HEADER_VALUE_MAX + 1 ->
   verdict F_header_value (input_with F_header_value w) = tri_false).
Proof.
  intros Hok. unfold verdict, input_with. after_prefix. after_prefix. after_prefix.
  split; intros Hsz.
  - erewrite outcome_after
      by (apply header_value_run; [reflexivity | assumption | size_arith]).
    vm_compute. reflexivity.
  - apply header_value_overrun; [reflexivity | assumption | |];
      size_arith.
Qed.

Lemma header_name_boundary (w : str) :
  Forall (fun c => field_octet F_header_name c = true) w ->
  (size w = HEADER_NAME_MAX ->
   verdict F_header_name (input_with F_header_name w) = tri_true) /\
  (size w = HEADER_NAME_MAX + 1 ->
   verdict F_header_name (input_with F_header_name w) = tri_false).
Proof.
  intros Hok. destruct w as [|c w]; [split; discriminate|].
  pose proof (Forall_inv Hok) as Hc; cbv beta in Hc.
  pose proof (Forall_inv_tail Hok) as Hw.
  unfold verdict, input_with. after_prefix. after_prefix.
  rewrite <- app_comm_cons.
  erewrite outcome_cons by (field_facts; turn_step).
  rewrite size_cons.
  split; intros Hsz.
  - erewrite outcome_after
      by (apply header_name_run;
          [reflexivity | assumption | size_arith]).
    vm_compute. reflexivity.
  - apply header_name_overrun; [reflexivity | assumption | |];
      size_arith.
Qed.

Lemma query_name_boundary (w : str) :
  Forall (fun c => field_octet F_query_name c = true) w ->
  (size w = QUERY_NAME_MAX ->
   verdict F_query_name (input_with F_query_name w) = tri_true) /\
  (size w = QUERY_NAME_MAX + 1 ->
   verdict F_query_name (input_with F_query_name w) = tri_false).
Proof.
  intros Hok. unfold verdict, input_with, parseURLEncoded, query_start.
  split; intros Hsz.
  - rewrite query_loop_app, query_name_run by (assumption || size_arith).
    destruct w as [|c w]; [discriminate|]. reflexivity.
  - pose proof (query_name_overrun w [] [] [] (bytes "=v") Hok) as H.
    destruct (query_loop _ (w ++ bytes "=v")) as [b l]. cbn [fst] in H.
    rewrite H; [reflexivity | |]; size_arith.
Qed.

Lemma query_value_boundary (w : str) :
  Forall (fun c => field_octet F_query_value c = true) w ->
  (size w = QUERY_VALUE_MAX ->
   verdict F_query_value (input_with F_query_value w) = tri_true) /\
  (size w = QUERY_VALUE_MAX + 1 ->
   verdict F_query_value (input_with F_query_value w) = tri_false).
Proof.
  intros Hok. unfold verdict, input_with, parseURLEncoded, query_start.
  split; intros Hsz.
  - rewrite query_loop_app.
    change (query_loop _ (bytes "n="))
      with (true, mkQueryLocals QUERY_PARSE_VALUE (bytes "n") [] []).
    cbv iota.
    rewrite query_value_run by (assumption || size_arith).
    reflexivity.
  - rewrite query_loop_app.
    change (query_loop _ (bytes "n="))
      with (true, mkQueryLocals QUERY_PARSE_VALUE (bytes "n") [] []).
    cbv iota.
    pose proof (query_value_overrun w (bytes "n") [] [] [] Hok) as H.
    rewrite app_nil_r in H.
    destruct (query_loop _ w) as [b l]. cbn [fst] in H.
    rewrite H; [reflexivity | |]; size_arith.
Qed.

(** C4: for each of the seven fields, a well-formed input whose field is
    exactly as long as the field's ceiling is accepted, and one whose field
    is one octet longer is refused. *)
Theorem ceiling_is_sharp (f : Field) (w w' : str) :
  Forall (fun c => field_octet f c = true) w ->
  Forall (fun c => field_octet f c = true) w' ->
  size w = ceiling f ->
  size w' = ceiling f + 1 ->
  verdict f (input_with f w) = tri_true /\
  verdict f (input_with f w') = tri_false.
Proof.
  intros Hw Hw' Hsz Hsz'.
  split; [revert Hsz; generalize w Hw | revert Hsz'; generalize w' Hw'];
    intros s Hs; destruct f;
    first [ apply (method_boundary s Hs) | apply (resource_boundary s Hs)
          | apply (query_string_boundary s Hs) | apply (header_name_boundary s Hs)
          | apply (header_value_boundary s Hs) | apply (query_name_boundary s Hs)
          | apply (query_value_boundary s Hs) ].
Qed.

Lemma ceiling_is_sharp_witness :
  verdict F_method (input_with F_method (repeat (chr "A") 1024)) = tri_true /\
  verdict F_method (input_with F_method (repeat (chr "A") 1025)) = tri_false.
Proof.
  apply (ceiling_is_sharp F_method (repeat (chr "A") 1024) (repeat (chr "A") 1025)).
  - apply Forall_repeat. reflexivity.
  - apply Forall_repeat. reflexivity.
  - vm_compute. reflexivity.
  - vm_compute. reflexivity.
Defined.

(** ** Decoding an encoded pair list *)

Lemma plain_name (s : str) :
  Forall (fun c => plain c = true) s ->
  Forall (fun c => field_octet F_query_name c = true) s.
Proof. exact (fun H => H). Qed.

Lemma plain_value (s : str) :
  Forall (fun c => plain c = true) s ->
  Forall (fun c => field_octet F_query_value c = true) s.
Proof.
  apply Forall_impl. intros c H. unfold plain in H. unfold field_octet.
  apply andb_prop in H as [H Hamp]. apply andb_prop in H as [Hctl _].
  now rewrite Hctl, Hamp.
Qed.

(** One [name=value] run, from the start of a name to the end of the value. *)
Lemma pair_run (n v : str) (d : StringDictionary) :
  plain_pair (n, v) -> within_ceilings (n, v) ->
  query_loop (query_start d) (n ++ chr "=" :: v) =
  (true, mkQueryLocals QUERY_PARSE_VALUE n v d).
Proof.
  intros (Hne & Hn & Hv) (Hsn & Hsv). cbn [fst snd] in *.
  unfold query_start.
  rewrite query_loop_app, query_name_run by (auto using plain_name || size_arith).
  cbn [app query_loop]. unfold query_turn. cbn [parse_state query_name].
  rewrite Z.eqb_refl. destruct n as [|c n]; [contradiction|]. cbn [empty].
  rewrite query_value_run by (auto using plain_value || size_arith).
  reflexivity.
Qed.

Lemma pair_then_more (n v : str) (d : StringDictionary) (rest : list octet) :
  plain_pair (n, v) -> within_ceilings (n, v) ->
  query_loop (query_start d) (n ++ chr "=" :: v ++ chr "&" :: rest) =
  query_loop (query_start (d ++ [(n, v)])) rest.
Proof.
  intros Hp Hc.
  change (n ++ chr "=" :: v ++ chr "&" :: rest)
    with (n ++ (chr "=" :: v) ++ chr "&" :: rest).
  rewrite app_assoc, query_loop_app, pair_run by assumption.
  reflexivity.
Qed.

Lemma decode_encode (pairs : list (str * str)) : forall d,
  Forall (fun nv => plain_pair nv /\ within_ceilings nv) pairs ->
  parseURLEncoded d (encode pairs) = (true, d ++ pairs).
Proof.
  induction pairs as [|[n v] more IH]; intros d Hall.
  - unfold parseURLEncoded. simpl. now rewrite app_nil_r.
  - pose proof (Forall_inv Hall) as [Hp Hc].
    pose proof (Forall_inv_tail Hall) as Hmore.
    destruct more as [|nv2 more].
    + unfold parseURLEncoded. cbn [encode].
      rewrite pair_run by assumption.
      destruct Hp as (Hne & _). cbn [fst] in Hne.
      destruct n; [contradiction|]. reflexivity.
    + specialize (IH (d ++ [(n, v)]) Hmore).
      unfold parseURLEncoded in *.
      change (encode ((n, v) :: nv2 :: more))
        with (n ++ chr "=" :: v ++ chr "&" :: encode (nv2 :: more)).
      rewrite pair_then_more by assumption.
      rewrite IH. now rewrite <- app_assoc.
Qed.

(** C5, as stated, fails: a pair whose name is 1,025 plain octets long meets
    every condition of the claim, and its encoding is refused. *)
Lemma long_name_refused :
  Forall plain_pair long_name_pairs /\
  parseURLEncoded [] (encode long_name_pairs) = (false, []).
Proof.
  split.
  - constructor; [|constructor]. repeat split.
    + discriminate.
    + apply Forall_repeat. reflexivity.
    + repeat constructor.
  - vm_compute. reflexivity.
Qed.

(** C5, amended: for every list of pairs with non-empty names, whose names
    and values are made of octets other than [=], [&] and control bytes, and
    whose names are at most 1,024 and values at most 1,048,576 octets long,
    [parseURLEncoded] accepts the canonical encoding and leaves exactly those
    pairs, in order, in a dictionary that was empty. *)
Theorem decode_encode_within_ceilings (pairs : list (str * str)) :
  Forall (fun nv => plain_pair nv /\ within_ceilings nv) pairs ->
  parseURLEncoded [] (encode pairs) = (true, pairs).
Proof. intros H. now rewrite decode_encode. Qed.

Lemma decode_encode_within_ceilings_witness :
  parseURLEncoded []
    (encode [(bytes "a", bytes "1"); (bytes "b", []); (bytes "c", bytes "2")]) =
  (true, [(bytes "a", bytes "1"); (bytes "b", []); (bytes "c", bytes "2")]).
Proof.
  apply (decode_encode_within_ceilings
           [(bytes "a", bytes "1"); (bytes "b", []); (bytes "c", bytes "2")]).
  repeat constructor; try discriminate.
Defined.

(** ** The completion sequence *)

Lemma decodeQueryString_same (r : HTTPRequest) :
  same_but_query_params r (decodeQueryString r).
Proof.
  unfold decodeQueryString, same_but_query_params.
  destruct (negb (empty (query_string r))); cbn; repeat split.
Qed.

Lemma decodePostContent_same (r : HTTPRequest) :
  same_but_query_params r (decodePostContent r).
Proof.
  unfold decodePostContent, same_but_query_params.
  destruct (str_eqb _ _); cbn; repeat split.
Qed.

Lemma same_refl (r : HTTPRequest) : same_but_query_params r r.
Proof. unfold same_but_query_params. repeat split. Qed.

Lemma same_trans (a b c : HTTPRequest) :
  same_but_query_params a b -> same_but_query_params b c ->
  same_but_query_params a c.
Proof.
  unfold same_but_query_params. intros H1 H2.
  decompose [and] H1. decompose [and] H2. repeat split; congruence.
Qed.

Lemma completed_same (r : HTTPRequest) :
  same_but_query_params (setIsValid true r) (completed r).
Proof.
  unfold completed.
  eapply same_trans; [apply decodeQueryString_same | apply decodePostContent_same].
Qed.

(** C3, as stated, fails: on the request of scenario S3 the reader sets
    [is_valid], the dictionary is still empty, and the request the handler
    then receives has three entries in [query_params]. *)
Lemma query_params_filled_after_valid :
  let r1 := setIsValid true (m_http_request S3_parser) in
  is_valid r1 = true /\ query_params r1 = [] /\
  snd (readContentBytes None S3_parser 0) =
    [request_handler (completed (m_http_request S3_parser))] /\
  query_params (completed (m_http_request S3_parser)) =
    [(bytes "a", bytes "1"); (bytes "b", []); (bytes "c", bytes "2")] /\
  completed (m_http_request S3_parser) <> r1.
Proof.
  cbv zeta. repeat split; try (vm_compute; reflexivity).
  vm_compute. discriminate.
Qed.

(** C3, amended: from the moment [readContentBytes] has set [is_valid] to
    true until it invokes the handler, the request changes in no field other
    than [query_params]; the handler receives the last of these states. *)
Theorem only_query_params_change (p : Parser) (bytes_read : Z) (x : HTTPRequest) :
  In x (completion_states (m_http_request p)) ->
  same_but_query_params (setIsValid true (m_http_request p)) x /\
  is_valid x = true /\
  snd (readContentBytes None p bytes_read) =
    [request_handler (completed (m_http_request p))] /\
  In (completed (m_http_request p)) (completion_states (m_http_request p)).
Proof.
  intros Hx.
  assert (Hsame : same_but_query_params (setIsValid true (m_http_request p)) x).
  { unfold completion_states in Hx. cbn [In] in Hx.
    destruct Hx as [<- | [<- | [<- | []]]].
    - apply same_refl.
    - apply decodeQueryString_same.
    - apply completed_same. }
  repeat split; try apply Hsame.
  - symmetry. apply Hsame.
  - unfold completion_states, completed. cbn [In]. auto.
Qed.

Lemma only_query_params_change_witness :
  same_but_query_params (setIsValid true (m_http_request S3_parser))
    (completed (m_http_request S3_parser)) /\
  is_valid (completed (m_http_request S3_parser)) = true /\
  snd (readContentBytes None S3_parser 0) =
    [request_handler (completed (m_http_request S3_parser))] /\
  In (completed (m_http_request S3_parser))
    (completion_states (m_http_request S3_parser)).
Proof.
  apply (only_query_params_change S3_parser 0 (completed (m_http_request S3_parser))).
  unfold completion_states, completed. simpl. auto.
Defined.

(** ** Form errors *)

Lemma query_turn_grows (l l' : QueryLocals) (c : octet) :
  query_turn l c = Some l' -> exists more, dict l' = dict l ++ more.
Proof.
  unfold query_turn, dict_insert.
  destruct (parse_state l);
    repeat match goal with
    | |- context [if ?b then _ else _] => destruct b
    end; intros [= <-]; cbn [dict];
    solve [ exists []; now rewrite app_nil_r | eexists; reflexivity ].
Qed.

Lemma query_loop_grows (s : list octet) : forall l b l',
  query_loop l s = (b, l') -> exists more, dict l' = dict l ++ more.
Proof.
  induction s as [|c s IH]; intros l b l'; simpl.
  - intros [= _ <-]. exists []. now rewrite app_nil_r.
  - destruct (query_turn l c) as [l1|] eqn:E.
    + intros H. apply IH in H as [m2 H2].
      apply query_turn_grows in E as [m1 H1].
      exists (m1 ++ m2). now rewrite H2, H1, app_assoc.
    + intros [= _ <-]. exists []. now rewrite app_nil_r.
Qed.

(** [parseURLEncoded] only ever adds to the dictionary, also when it fails. *)
Lemma parseURLEncoded_grows (d : StringDictionary) (s : list octet) :
  exists more, snd (parseURLEncoded d s) = d ++ more.
Proof.
  unfold parseURLEncoded.
  destruct (query_loop (query_start d) s) as [b l] eqn:E.
  apply query_loop_grows in E as [m Hm]. cbn [dict query_start] in Hm.
  destruct b; cbn [snd].
  - destruct (negb (empty (query_name l))).
    + unfold dict_insert. rewrite Hm, <- app_assoc. eexists; reflexivity.
    + eauto.
  - eauto.
Qed.

(** A loop that returns false stopped at one octet, with the locals as the
    octets before it left them. *)
Lemma query_loop_stops (s : list octet) : forall l l',
  query_loop l s = (false, l') ->
  exists pre c post,
    s = pre ++ c :: post /\ query_loop l pre = (true, l') /\ query_turn l' c = None.
Proof.
  induction s as [|c s IH]; intros l l'; simpl.
  - discriminate.
  - destruct (query_turn l c) as [l1|] eqn:E.
    + intros H. apply IH in H as (pre & c' & post & -> & Hpre & Hc).
      exists (c :: pre), c', post. simpl. rewrite E. auto.
    + intros [= <-]. exists [], c, s. auto.
Qed.

Lemma incl_app_left {A} (a more : list A) : incl a (a ++ more).
Proof. apply incl_appl, incl_refl. Qed.

(** The dictionary with which a phase leaves [parseURLEncoded] is part of
    the dictionary the handler sees. *)
Lemma phase_result_retained (ph : Phase) (r : HTTPRequest) :
  phase_runs ph r = true ->
  incl (snd (parseURLEncoded (phase_dict ph r) (phase_input ph r)))
       (query_params (completed r)).
Proof.
  intros Hruns. unfold completed.
  pose proof (decodeQueryString_same (setIsValid true r)) as Hq.
  set (r2 := decodeQueryString (setIsValid true r)) in *.
  destruct Hq as (_ & _ & _ & _ & _ & Hh & Hcl & Hbb & _).
  cbn [headers content_length body_buffer setIsValid] in Hh, Hcl, Hbb.
  destruct ph; cbn [phase_runs phase_dict phase_input] in *.
  - assert (Hr2 : query_params r2 =
                  snd (parseURLEncoded (query_params r) (query_string r))).
    { unfold r2, decodeQueryString. cbn [query_string setIsValid query_params].
      rewrite Hruns. reflexivity. }
    rewrite <- Hr2. unfold decodePostContent.
    destruct (str_eqb _ _); cbn [query_params setQueryParams].
    + destruct (parseURLEncoded_grows (query_params r2) (getPostContent r2))
        as [more ->].
      apply incl_app_left.
    + apply incl_refl.
  - fold r2. unfold decodePostContent.
    assert (Hg : getHeader HEADER_CONTENT_TYPE r2 = getHeader HEADER_CONTENT_TYPE r)
      by (unfold getHeader; now rewrite <- Hh).
    assert (Hp : getPostContent r2 = getPostContent r)
      by (unfold getPostContent; now rewrite <- Hcl, <- Hbb).
    rewrite Hg, Hruns, Hp. cbn [query_params setQueryParams]. apply incl_refl.
Qed.

(** C6: when [parseURLEncoded] returns false on the query string or on the
    url-encoded body during the completion sequence, the request the handler
    receives still has [is_valid] true, and every pair that was in the
    dictionary when the decoder stopped, those committed by the octets
    before the failing one included, is in its [query_params]. *)
Theorem form_error_keeps_request (ph : Phase) (r : HTTPRequest) :
  phase_runs ph r = true ->
  fst (parseURLEncoded (phase_dict ph r) (phase_input ph r)) = false ->
  is_valid (completed r) = true /\
  exists pre c post,
    phase_input ph r = pre ++ c :: post /\
    query_loop (query_start (phase_dict ph r)) pre =
      (true, locals_after (phase_dict ph r) pre) /\
    query_turn (locals_after (phase_dict ph r) pre) c = None /\
    incl (dict (locals_after (phase_dict ph r) pre)) (query_params (completed r)).
Proof.
  intros Hruns Hfail. split.
  - destruct (completed_same r) as (_ & _ & _ & _ & _ & _ & _ & _ & Hv).
    now rewrite <- Hv.
  - pose proof (phase_result_retained ph r Hruns) as Hincl.
    unfold parseURLEncoded in Hfail, Hincl.
    destruct (query_loop (query_start (phase_dict ph r)) (phase_input ph r))
      as [[] l] eqn:E; [discriminate|].
    cbn [snd] in Hincl.
    apply query_loop_stops in E as (pre & c & post & Hs & Hpre & Hc).
    exists pre, c, post. unfold locals_after. rewrite Hpre. cbn [snd]. auto.
Qed.

Lemma form_error_keeps_request_witness :
  is_valid (completed broken_query_request) = true /\
  exists pre c post,
    phase_input URI_query broken_query_request = pre ++ c :: post /\
    query_loop (query_start (phase_dict URI_query broken_query_request)) pre =
      (true, locals_after (phase_dict URI_query broken_query_request) pre) /\
    query_turn (locals_after (phase_dict URI_query broken_query_request) pre) c = None /\
    incl (dict (locals_after (phase_dict URI_query broken_query_request) pre))
         (query_params (completed broken_query_request)).
Proof.
  apply (form_error_keeps_request URI_query broken_query_request).
  - vm_compute. reflexivity.
  - vm_compute. reflexivity.
Defined.

(** ** Refused requests *)

(** A refusal happens at one octet; the octets before it were consumed and
    left the parser as it is returned. *)
Lemma refused_at (buf : list octet) : forall p k q,
  parseRequestHeaders p buf = (tri_false, k, q) ->
  exists c post,
    buf = firstn k buf ++ c :: post /\
    parseRequestHeaders p (firstn k buf) = (indeterminate, k, q) /\
    turn q c = Return_false.
Proof.
  induction buf as [|c buf IH]; intros p k q; simpl.
  - discriminate.
  - destruct (turn p c) as [p'| adv |] eqn:E.
    + destruct (parseRequestHeaders p' buf) as [[r n] q'] eqn:E'.
      intros [= -> <- <-].
      apply IH in E' as (c' & post & Hbuf & Hpre & Hc').
      exists c', post. simpl. rewrite E, Hpre. rewrite <- Hbuf. auto.
    + discriminate.
    + intros [= <- <-]. exists c, buf. simpl. auto.
Qed.

(** C9: when the header machine refuses, the handler receives the request
    exactly as the octets before the offending one left it, every committed
    method, resource, query string, version number and header in place, with
    [is_valid] false. *)
Theorem reject_keeps_committed_fields
    (new_char : Z -> list octet) (p q : Parser) (buf : list octet) (k : nat) :
  parseRequestHeaders p buf = (tri_false, k, q) ->
  exists c post delivered,
    buf = firstn k buf ++ c :: post /\
    parseRequestHeaders p (firstn k buf) = (indeterminate, k, q) /\
    turn q c = Return_false /\
    snd (readHeaderBytes new_char None p buf) = [request_handler delivered] /\
    is_valid delivered = false /\
    committed_fields delivered = committed_fields (m_http_request q).
Proof.
  intros H. destruct (refused_at _ _ _ _ H) as (c & post & Hbuf & Hpre & Hc).
  exists c, post, (setIsValid false (m_http_request q)).
  unfold readHeaderBytes. rewrite H. cbn. auto 10.
Qed.

Lemma reject_keeps_committed_fields_witness :
  exists c post delivered,
    S7_input = firstn 7 S7_input ++ c :: post /\
    parseRequestHeaders new_parser (firstn 7 S7_input) =
      (indeterminate, 7%nat,
       mkParser PARSE_HTTP_VERSION_T_1 (bytes "GET") (bytes "/") [] [] []
         (mkHTTPRequest (bytes "GET") (bytes "/") [] 0 0 [] [] 0 [] false)) /\
    turn (mkParser PARSE_HTTP_VERSION_T_1 (bytes "GET") (bytes "/") [] [] []
            (mkHTTPRequest (bytes "GET") (bytes "/") [] 0 0 [] [] 0 [] false)) c
      = Return_false /\
    snd (readHeaderBytes (fun n => repeat 0 (Z.to_nat n)) None new_parser S7_input)
      = [request_handler delivered] /\
    is_valid delivered = false /\
    committed_fields delivered =
      (bytes "GET", bytes "/", [], 0, 0, []).
Proof.
  apply (reject_keeps_committed_fields (fun n => repeat 0 (Z.to_nat n)) new_parser
           (mkParser PARSE_HTTP_VERSION_T_1 (bytes "GET") (bytes "/") [] [] []
              (mkHTTPRequest (bytes "GET") (bytes "/") [] 0 0 [] [] 0 [] false))
           S7_input 7).
  vm_compute. reflexivity.
Defined.

(** ** Content length and the body buffer *)

Lemma no_number_is_zero (s : str) : begins_with_number s = false -> strtoul s = 0.
Proof.
  unfold begins_with_number, strtoul.
  destruct (skip_space s) as [|c t]; [reflexivity|].
  destruct (c =? chr "-") eqn:Em; cbn [orb].
  - destruct t as [|d t]; [reflexivity|]. cbn [unsigned_value]. now intros ->.
  - destruct (c =? chr "+") eqn:Ep.
    + destruct t as [|d t]; [reflexivity|]. cbn [unsigned_value]. now intros ->.
    + cbn [unsigned_value]. now intros ->.
Qed.

(** C10: when the request has a Content-Length header whose value does not
    begin, after optional white space, with an optional sign and a decimal
    digit, the reader takes the content length to be 0, allocates no post
    buffer, issues no read for a body and runs the completion sequence at
    once. *)
Theorem unparsable_content_length
    (new_char : Z -> list octet) (p q : Parser) (buf : list octet) (consumed : nat) :
  parseRequestHeaders p buf = (tri_true, consumed, q) ->
  hasHeader HEADER_CONTENT_LENGTH (m_http_request q) = true ->
  begins_with_number (getHeader HEADER_CONTENT_LENGTH (m_http_request q)) = false ->
  declared_content_length (m_http_request q) = 0 /\
  readHeaderBytes new_char None p buf = readContentBytes None q 0 /\
  snd (readHeaderBytes new_char None p buf) =
    [request_handler (completed (m_http_request q))] /\
  body_buffer (completed (m_http_request q)) = body_buffer (m_http_request q) /\
  content_length (completed (m_http_request q)) = content_length (m_http_request q).
Proof.
  intros Hparse Hhas Hnum.
  assert (H0 : declared_content_length (m_http_request q) = 0).
  { unfold declared_content_length. rewrite Hhas. now apply no_number_is_zero. }
  assert (Hr : readHeaderBytes new_char None p buf = readContentBytes None q 0).
  { unfold readHeaderBytes. rewrite Hparse, H0. reflexivity. }
  destruct (completed_same (m_http_request q))
    as (_ & _ & _ & _ & _ & _ & Hcl & Hbb & _).
  repeat split; try assumption.
  - rewrite Hr. reflexivity.
  - now rewrite <- Hbb.
  - now rewrite <- Hcl.
Qed.

Lemma unparsable_content_length_witness :
  declared_content_length
    (m_http_request (snd (parseRequestHeaders new_parser bad_length_input))) = 0 /\
  readHeaderBytes zero_filled None new_parser bad_length_input =
    readContentBytes None (snd (parseRequestHeaders new_parser bad_length_input)) 0 /\
  snd (readHeaderBytes zero_filled None new_parser bad_length_input) =
    [request_handler
       (completed
          (m_http_request (snd (parseRequestHeaders new_parser bad_length_input))))] /\
  body_buffer
    (completed
       (m_http_request (snd (parseRequestHeaders new_parser bad_length_input)))) =
  body_buffer
    (m_http_request (snd (parseRequestHeaders new_parser bad_length_input))) /\
  content_length
    (completed
       (m_http_request (snd (parseRequestHeaders new_parser bad_length_input)))) =
  content_length
    (m_http_request (snd (parseRequestHeaders new_parser bad_length_input))).
Proof.
  apply (unparsable_content_length zero_filled new_parser
           (snd (parseRequestHeaders new_parser bad_length_input))
           bad_length_input (length bad_length_input)).
  - vm_compute. reflexivity.
  - vm_compute. reflexivity.
  - vm_compute. reflexivity.
Defined.

Lemma take_residual_spec (new_char : Z -> list octet) (r : HTTPRequest)
    (L : Z) (residual : list octet) :
  Z.of_nat (length residual) < UINT_MOD -> 0 < L ->
  let resid := Z.of_nat (length residual) in
  let n := Z.min resid L in
  exists r',
    take_residual new_char r L residual =
      (r', if resid <? L then resid else 0, if resid <? L then L - resid else 0) /\
    content_length r' = L /\
    body_buffer r' = firstn (Z.to_nat n) residual ++ skipn (Z.to_nat n) (new_char L) /\
    committed_fields r' = committed_fields r /\
    query_params r' = query_params r /\ is_valid r' = is_valid r.
Proof.
  intros Hsmall HL resid n. unfold take_residual.
  set (r1 := createPostContentBuffer new_char (setContentLength L r)).
  destruct residual as [|c t].
  - exists r1. subst resid n. cbn [length Z.of_nat].
    destruct (Z.ltb_spec 0 L); [|lia]. rewrite Z.sub_0_r.
    rewrite Z.min_l by lia. cbn. repeat split.
  - set (residual := c :: t) in *.
    rewrite Z.mod_small by lia. fold resid.
    rewrite Z.geb_leb.
    destruct (Z.leb_spec L resid) as [Hge|Hlt].
    + exists (setPostContent (memcpy (body_buffer r1) residual L) r1).
      destruct (Z.ltb_spec resid L); [lia|].
      unfold n. rewrite Z.min_r by lia. cbn. repeat split.
    + exists (setPostContent (memcpy (body_buffer r1) residual resid) r1).
      destruct (Z.ltb_spec resid L); [|lia].
      unfold n. rewrite Z.min_l by lia. cbn. repeat split.
Qed.

(** C7: after an accept that consumed [consumed] of the [bytes_read] octets,
    with a declared content length [L] > 0, the reader allocates a post
    buffer of [L] octets and copies the first [min (bytes_read - consumed) L]
    residual octets to its start, leaving the rest of the buffer as
    allocated; it issues one further read, for exactly [L] minus the
    residual, when the residual is shorter than [L], and no call at all
    otherwise, so that residual octets past [L] go nowhere.  The read buffer
    is a fixed array, far shorter than 2^32. *)
Theorem residual_fills_post_buffer
    (new_char : Z -> list octet) (p q : Parser) (buf : list octet)
    (consumed : nat) (L : Z) :
  (forall n, length (new_char n) = Z.to_nat n) ->
  Z.of_nat (length buf) < UINT_MOD ->
  parseRequestHeaders p buf = (tri_true, consumed, q) ->
  declared_content_length (m_http_request q) = L ->
  0 < L ->
  let residual := skipn consumed buf in
  let resid := Z.of_nat (length buf) - Z.of_nat consumed in
  let n := Z.min resid L in
  exists r,
    readHeaderBytes new_char None p buf =
      (replace_request r q,
       if resid <? L then [async_read resid (L - resid)] else []) /\
    content_length r = L /\
    length (body_buffer r) = Z.to_nat L /\
    firstn (Z.to_nat n) (body_buffer r) = firstn (Z.to_nat n) residual /\
    length (firstn (Z.to_nat n) residual) = Z.to_nat n /\
    skipn (Z.to_nat n) (body_buffer r) = skipn (Z.to_nat n) (new_char L).
Proof.
  intros Halloc Hsmall Hparse HL Hpos residual resid n.
  pose proof (consumed_le _ _ _ _ _ Hparse) as Hle.
  assert (Hlen : Z.of_nat (length residual) = resid).
  { unfold residual, resid. rewrite length_skipn. lia. }
  destruct (take_residual_spec new_char (m_http_request q) L residual)
    as (r & Htake & Hcl & Hbody & _); [lia | assumption |].
  rewrite Hlen in Htake, Hbody. fold n in Hbody.
  assert (Hn : (Z.to_nat n <= length residual)%nat) by (unfold n; lia).
  assert (Hf : length (firstn (Z.to_nat n) residual) = Z.to_nat n).
  { rewrite length_firstn. lia. }
  exists r. repeat split; try assumption.
  - unfold readHeaderBytes. rewrite Hparse, HL.
    destruct (Z.eqb_spec L 0); [lia|].
    fold residual. rewrite Htake.
    destruct (Z.ltb_spec resid L).
    + destruct (Z.eqb_spec (L - resid) 0); [lia|reflexivity].
    + reflexivity.
  - rewrite Hbody, length_app, Hf, length_skipn, Halloc. unfold n. lia.
  - rewrite Hbody, firstn_app, Hf, Nat.sub_diag, firstn_O, app_nil_r.
    now rewrite firstn_all2 by (rewrite Hf; lia).
  - rewrite Hbody, skipn_app, Hf, Nat.sub_diag.
    rewrite skipn_all2 by (rewrite Hf; lia). reflexivity.
Qed.

Lemma residual_fills_post_buffer_witness :
  exists r,
    readHeaderBytes zero_filled None new_parser S4_first_read =
      (replace_request r (snd (parseRequestHeaders new_parser S4_first_read)),
       [async_read 3 4]) /\
    content_length r = 7 /\
    length (body_buffer r) = 7%nat /\
    firstn 3 (body_buffer r) = bytes "k=v" /\
    length (bytes "k=v") = 3%nat /\
    skipn 3 (body_buffer r) = [0; 0; 0; 0].
Proof.
  apply (residual_fills_post_buffer zero_filled new_parser
           (snd (parseRequestHeaders new_parser S4_first_read))
           S4_first_read (length S4_headers) 7).
  - intros n. apply repeat_length.
  - vm_compute. reflexivity.
  - vm_compute. reflexivity.
  - vm_compute. reflexivity.
  - lia.
Defined.

(** * Further properties of the header machine *)

(** ** Pointer arithmetic *)

(** X1: [ptr] ends between the start and the end of the buffer, and at the
    end when more octets are asked for. *)
Theorem consumed_within_buffer (p q : Parser) (buf : list octet) (r : tribool) (n : nat) :
  parseRequestHeaders p buf = (r, n, q) ->
  (n <= length buf)%nat /\ (r = indeterminate -> n = length buf).
Proof.
  intros H. split.
  - eapply consumed_le; eassumption.
  - intros ->. eapply indeterminate_consumes_all; eassumption.
Qed.

Lemma consumed_within_buffer_witness :
  (length S2_input <= length S2_input)%nat /\
  (tri_true = indeterminate -> length S2_input = length S2_input).
Proof.
  apply (consumed_within_buffer new_parser
           (snd (parseRequestHeaders new_parser S2_input)) S2_input).
  vm_compute. reflexivity.
Defined.

(** X2: a refusal consumes nothing of the offending octet and changes no
    member: the same call on what is left of the buffer is refused again,
    at once. *)
Theorem refusal_is_repeated (p q : Parser) (buf : list octet) (k : nat) :
  parseRequestHeaders p buf = (tri_false, k, q) ->
  parseRequestHeaders q (skipn k buf) = (tri_false, 0%nat, q).
Proof.
  intros H. destruct (refused_at _ _ _ _ H) as (c & post & Hbuf & Hpre & Hc).
  assert (Hk : length (firstn k buf) = k).
  { apply indeterminate_consumes_all in Hpre. congruence. }
  assert (Hs : skipn k buf = c :: post).
  { rewrite Hbuf at 1. rewrite skipn_app, Hk, Nat.sub_diag.
    rewrite skipn_all2 by lia. reflexivity. }
  rewrite Hs. simpl. rewrite Hc. reflexivity.
Qed.

Lemma refusal_is_repeated_witness :
  parseRequestHeaders (snd (parseRequestHeaders new_parser S7_input))
    (skipn 7 S7_input) =
  (tri_false, 0%nat, snd (parseRequestHeaders new_parser S7_input)).
Proof.
  apply (refusal_is_repeated new_parser
           (snd (parseRequestHeaders new_parser S7_input)) S7_input 7).
  vm_compute. reflexivity.
Defined.

(** ** Invariants *)

Lemma fits_nil (f : Field) : fits f [].
Proof. split; [constructor | destruct f; vm_compute; discriminate]. Qed.

Lemma fits_single (f : Field) (c : octet) : field_octet f c = true -> fits f [c].
Proof.
  intros H. split; [repeat constructor; exact H | destruct f; vm_compute; discriminate].
Qed.

Lemma fits_push_back (f : Field) (s : str) (c : octet) :
  fits f s -> field_octet f c = true -> (size s >=? ceiling f) = false ->
  fits f (push_back s c).
Proof.
  intros [Hs Hsz] Hc Hlt. rewrite Z.geb_leb in Hlt. apply Z.leb_gt in Hlt. split.
  - apply Forall_app. split; [assumption | repeat constructor; exact Hc].
  - rewrite size_push_back. lia.
Qed.

Lemma push_back_not_nil (s : str) (c : octet) : push_back s c <> [].
Proof. unfold push_back. destruct s; discriminate. Qed.

Lemma token_not_control (c : octet) : not_token c = false -> isControl c = false.
Proof. intros H. now destruct (token_parts c H) as (_ & ? & _). Qed.

Lemma uint_range (n : Z) : 0 <= n mod UINT_MOD < UINT_MOD.
Proof. apply Z.mod_pos_bound. reflexivity. Qed.

Ltac octet_ok :=
  unfold field_octet;
  repeat match goal with
  | H : not_token ?c = false |- context [isControl ?c] =>
      rewrite (token_not_control c H)
  | H : _ = false |- _ => rewrite H
  end;
  reflexivity.

Ltac inv_goal :=
  match goal with
  | |- fits _ [] => apply fits_nil
  | |- fits _ (push_back [] _) => apply fits_single; octet_ok
  | |- fits _ (push_back _ _) =>
      first [ apply fits_push_back; [assumption | octet_ok | assumption]
            | match goal with
              | H : ?s = ?s -> ?hv = [] |- fits _ (push_back ?hv _) =>
                  rewrite (H eq_refl); apply fits_single; octet_ok
              end ]
  | |- fits _ _ => assumption
  | |- push_back _ _ <> [] => apply push_back_not_nil
  | |- _ -> _ => solve [ intros; discriminate | intros; assumption | intros _; reflexivity
                       | intros _; apply push_back_not_nil | auto ]
  | |- 0 <= _ mod UINT_MOD => apply uint_range
  | |- _ mod UINT_MOD < UINT_MOD => apply uint_range
  | |- 0 <= _ => assumption
  | |- _ < UINT_MOD => assumption
  | |- Forall header_ok (dict_insert _ _) =>
      unfold dict_insert; apply Forall_app; split;
      [ assumption
      | constructor; [|constructor]; unfold header_ok; cbn [fst snd];
        repeat match goal with |- _ /\ _ => split end; try assumption;
        match goal with H : _ = true -> ?n <> [] |- ?n <> [] => apply H; reflexivity end ]
  | |- Forall header_ok _ => assumption
  | |- _ <> [] => solve [ auto ]
  | |- _ = [] => solve [ auto ]
  end.

Lemma turn_keeps_parser_ok (p p' : Parser) (c : octet) :
  parser_ok p -> turn p c = Next p' -> parser_ok p'.
Proof.
  intros Hok H.
  destruct p as [st m r q hn hv req].
  unfold parser_ok, request_ok in *. cbn [m_parse_state m_method m_resource
    m_query_string m_header_name m_header_value m_http_request] in *.
  destruct Hok as (Hm & Hr & Hq & Hhn & Hhv & Hmne & Hhne & Hhve & Hpast
                   & Hrm & Hrr & Hrq & [Hvj Hvj'] & [Hvn Hvn'] & Hhs).
  unfold turn, literal, begin_header_name in H.
  cbn [m_parse_state m_method m_resource m_query_string m_header_name
       m_header_value m_http_request] in H.
  destruct st;
    repeat match type of H with
    | context [if ?b then _ else _] =>
        let E := fresh "E" in destruct b eqn:E
    end;
    try discriminate H; injection H as <-;
    cbn -[push_back UINT_MOD Z.modulo];
    repeat match goal with |- _ /\ _ => split end; try inv_goal.
Qed.

Lemma new_parser_ok : parser_ok new_parser.
Proof.
  unfold parser_ok, request_ok, new_parser, new_request. cbn.
  repeat match goal with |- _ /\ _ => split end;
    try apply fits_nil; try discriminate; try reflexivity; constructor.
Qed.

Lemma parse_keeps_parser_ok (buf : list octet) : forall p,
  parser_ok p -> parser_ok (snd (parseRequestHeaders p buf)).
Proof.
  induction buf as [|c buf IH]; intros p Hok; simpl.
  - assumption.
  - destruct (turn p c) as [p'| adv |] eqn:E; try assumption.
    specialize (IH p' (turn_keeps_parser_ok _ _ _ Hok E)).
    destruct (parseRequestHeaders p' buf) as [[r n] q]. exact IH.
Qed.

Lemma true_in_accepting_state (buf : list octet) : forall p k q,
  parseRequestHeaders p buf = (tri_true, k, q) ->
  accepting (m_parse_state q) = true.
Proof.
  induction buf as [|c buf IH]; intros p k q; simpl.
  - discriminate.
  - destruct (turn p c) as [p'| adv |] eqn:E.
    + destruct (parseRequestHeaders p' buf) as [[r n] q'] eqn:E'.
      intros [= -> _ <-]. eapply IH; eassumption.
    + intros [= _ <-]. clear IH. unfold turn, literal, begin_header_name in E.
      destruct (m_parse_state p); try reflexivity;
        repeat match type of E with
        | context [if ?b then _ else _] => destruct b
        end; discriminate E.
    + discriminate.
Qed.

(** X3: whatever octets arrive and however the stream is split into reads,
    at every return of the header machine the five scratch strings and the
    request's method, resource and query string are within their ceilings
    and made of octets their states admit, the version numbers are below
    2^32, and every header has a non-empty token name within its ceiling
    and a value without control octets within its ceiling. *)
Theorem committed_fields_within_ceilings (parts : list (list octet)) :
  parser_ok (snd (feed new_parser parts)) /\
  request_ok (m_http_request (snd (feed new_parser parts))).
Proof.
  rewrite feed_concat.
  pose proof (parse_keeps_parser_ok (concat parts) new_parser new_parser_ok) as H.
  split; [exact H | apply H].
Qed.

(** X4: a fresh machine returns true only from one of the four states that
    follow a line end, and then the request has a non-empty method. *)
Theorem accept_only_after_line_end (buf : list octet) (k : nat) (q : Parser) :
  parseRequestHeaders new_parser buf = (tri_true, k, q) ->
  accepting (m_parse_state q) = true /\ method (m_http_request q) <> [].
Proof.
  intros H. pose proof (true_in_accepting_state _ _ _ _ H) as Hacc.
  split; [assumption|].
  pose proof (parse_keeps_parser_ok buf new_parser new_parser_ok) as Hok.
  rewrite H in Hok. cbn [snd] in Hok.
  destruct Hok as (_ & _ & _ & _ & _ & _ & _ & _ & Hpast & _).
  apply Hpast. destruct (m_parse_state q); try discriminate; reflexivity.
Qed.

Lemma accept_only_after_line_end_witness :
  accepting (m_parse_state (snd (parseRequestHeaders new_parser S2_input))) = true /\
  method (m_http_request (snd (parseRequestHeaders new_parser S2_input))) <> [].
Proof.
  apply (accept_only_after_line_end S2_input (length S2_input)
           (snd (parseRequestHeaders new_parser S2_input))).
  vm_compute. reflexivity.
Defined.
(** ** Parsing a serialized head *)

Lemma runs_nil (p : Parser) : runs p [] p.
Proof. reflexivity. Qed.

Lemma runs_cons (p q r : Parser) (c : octet) (s : list octet) :
  turn p c = Next q -> runs q s r -> runs p (c :: s) r.
Proof. unfold runs. intros Ht Hr. simpl. now rewrite Ht, Hr. Qed.

Lemma runs_app (p q r : Parser) (a b : list octet) :
  runs p a q -> runs q b r -> runs p (a ++ b) r.
Proof.
  unfold runs. intros Ha Hb. rewrite parse_app, Ha, Hb, length_app. reflexivity.
Qed.

Lemma runs_then_true (p q q' : Parser) (a b : list octet) (k : nat) :
  runs p a q -> parseRequestHeaders q b = (tri_true, k, q') ->
  parseRequestHeaders p (a ++ b) = (tri_true, (length a + k)%nat, q').
Proof. unfold runs. intros Ha Hb. now rewrite parse_app, Ha, Hb. Qed.

Ltac step := eapply runs_cons; [reflexivity|].

Lemma digit_neq (c x : octet) : isDigit c = true -> isDigit x = false -> (c =? x) = false.
Proof. intros Hc Hx. destruct (Z.eqb_spec c x) as [->|]; congruence. Qed.

Lemma setVersionMajor_step (a d : Z) (r : HTTPRequest) :
  setVersionMajor (version_major (setVersionMajor a r) * 10 + d) (setVersionMajor a r)
  = setVersionMajor (a * 10 + d) r.
Proof.
  unfold setVersionMajor. cbn. f_equal.
  rewrite (Z.add_mod (a mod UINT_MOD * 10)), Z.mul_mod_idemp_l,
    <- Z.add_mod by discriminate. reflexivity.
Qed.

Lemma setVersionMinor_step (a d : Z) (r : HTTPRequest) :
  setVersionMinor (version_minor (setVersionMinor a r) * 10 + d) (setVersionMinor a r)
  = setVersionMinor (a * 10 + d) r.
Proof.
  unfold setVersionMinor. cbn. f_equal.
  rewrite (Z.add_mod (a mod UINT_MOD * 10)), Z.mul_mod_idemp_l,
    <- Z.add_mod by discriminate. reflexivity.
Qed.

Lemma major_digits_run (ds : list octet) : forall a m r q hn hv req,
  Forall (fun c => isDigit c = true) ds ->
  runs (mkParser PARSE_HTTP_VERSION_MAJOR m r q hn hv (setVersionMajor a req)) ds
       (mkParser PARSE_HTTP_VERSION_MAJOR m r q hn hv
          (setVersionMajor (fold_left (fun a c => a * 10 + (c - chr "0")) ds a) req)).
Proof.
  induction ds as [|c ds IH]; intros a m r q hn hv req Hds.
  - apply runs_nil.
  - pose proof (Forall_inv Hds) as Hc; cbv beta in Hc.
    eapply runs_cons; [|apply IH; exact (Forall_inv_tail Hds)].
    unfold turn. cbn [m_parse_state].
    rewrite (digit_neq c (chr ".")), Hc by (assumption || reflexivity).
    unfold on_request. cbn [m_http_request m_parse_state m_method m_resource
      m_query_string m_header_name m_header_value].
    now rewrite setVersionMajor_step.
Qed.

Lemma minor_digits_run (ds : list octet) : forall a m r q hn hv req,
  Forall (fun c => isDigit c = true) ds ->
  runs (mkParser PARSE_HTTP_VERSION_MINOR m r q hn hv (setVersionMinor a req)) ds
       (mkParser PARSE_HTTP_VERSION_MINOR m r q hn hv
          (setVersionMinor (fold_left (fun a c => a * 10 + (c - chr "0")) ds a) req)).
Proof.
  induction ds as [|c ds IH]; intros a m r q hn hv req Hds.
  - apply runs_nil.
  - pose proof (Forall_inv Hds) as Hc; cbv beta in Hc.
    eapply runs_cons; [|apply IH; exact (Forall_inv_tail Hds)].
    unfold turn. cbn [m_parse_state].
    rewrite (digit_neq c CR), (digit_neq c LF), Hc by (assumption || reflexivity).
    unfold on_request. cbn [m_http_request m_parse_state m_method m_resource
      m_query_string m_header_name m_header_value].
    now rewrite setVersionMinor_step.
Qed.

Lemma decimal_cons (c : octet) (ds : list octet) :
  decimal (c :: ds) = fold_left (fun a c => a * 10 + (c - chr "0")) ds (c - chr "0").
Proof. reflexivity. Qed.

Lemma major_number_run (dj m r q hn hv : str) (req : HTTPRequest) :
  digits dj ->
  runs (mkParser PARSE_HTTP_VERSION_MAJOR_START m r q hn hv req) dj
       (mkParser PARSE_HTTP_VERSION_MAJOR m r q hn hv
          (setVersionMajor (decimal dj) req)).
Proof.
  intros [Hj Hdj]. destruct dj as [|j dj]; [contradiction|].
  pose proof (Forall_inv Hdj) as Hj1; cbv beta in Hj1.
  rewrite decimal_cons.
  apply (runs_cons _ (mkParser PARSE_HTTP_VERSION_MAJOR m r q hn hv
                        (setVersionMajor (j - chr "0") req))).
  - unfold turn. cbn [m_parse_state]. rewrite Hj1. reflexivity.
  - apply major_digits_run. exact (Forall_inv_tail Hdj).
Qed.

Lemma minor_number_run (dn m r q hn hv : str) (req : HTTPRequest) :
  digits dn ->
  runs (mkParser PARSE_HTTP_VERSION_MINOR_START m r q hn hv req) dn
       (mkParser PARSE_HTTP_VERSION_MINOR m r q hn hv
          (setVersionMinor (decimal dn) req)).
Proof.
  intros [Hn Hdn]. destruct dn as [|n dn]; [contradiction|].
  pose proof (Forall_inv Hdn) as Hn1; cbv beta in Hn1.
  rewrite decimal_cons.
  apply (runs_cons _ (mkParser PARSE_HTTP_VERSION_MINOR m r q hn hv
                        (setVersionMinor (n - chr "0") req))).
  - unfold turn. cbn [m_parse_state]. rewrite Hn1. reflexivity.
  - apply minor_digits_run. exact (Forall_inv_tail Hdn).
Qed.

(** ["HTTP/" major "." minor], from the state after the target. *)
Lemma version_run (dj dn : list octet) (m r q hn hv : str) (req : HTTPRequest) :
  digits dj -> digits dn ->
  runs (mkParser PARSE_HTTP_VERSION_H m r q hn hv req)
       (bytes "HTTP/" ++ dj ++ chr "." :: dn)
       (mkParser PARSE_HTTP_VERSION_MINOR m r q hn hv
          (setVersionMinor (decimal dn) (setVersionMajor (decimal dj) req))).
Proof.
  intros Hdj Hdn.
  apply (runs_app _ (mkParser PARSE_HTTP_VERSION_MAJOR_START m r q hn hv req)).
  { repeat step. apply runs_nil. }
  apply (runs_app _ (mkParser PARSE_HTTP_VERSION_MAJOR m r q hn hv
                       (setVersionMajor (decimal dj) req))).
  { now apply major_number_run. }
  apply (runs_cons _ (mkParser PARSE_HTTP_VERSION_MINOR_START m r q hn hv
                        (setVersionMajor (decimal dj) req))).
  { reflexivity. }
  now apply minor_number_run.
Qed.
Ltac fits_concrete := split; [repeat constructor | vm_compute; discriminate].

Lemma runs_of_run (p : Parser) (w : list octet) (q : Parser) :
  parseRequestHeaders p w = (indeterminate, length w, q) -> runs p w q.
Proof. exact (fun H => H). Qed.

Lemma fits_size (f : Field) (s : str) : fits f s -> size [] + size s <= ceiling f.
Proof. intros [_ H]. exact H. Qed.

(** The method and the space after it. *)
Lemma method_segment (w m r q hn hv : str) (req : HTTPRequest) :
  w <> [] -> fits F_method w ->
  runs (mkParser PARSE_METHOD_START m r q hn hv req) (w ++ [SP])
       (mkParser PARSE_URI_STEM w [] q hn hv (setMethod w req)).
Proof.
  intros Hne [Hw Hsz]. destruct w as [|c w]; [contradiction|].
  pose proof (Forall_inv Hw) as Hc; cbv beta in Hc.
  rewrite size_cons in Hsz.
  rewrite <- app_comm_cons. eapply runs_cons.
  { field_facts. unfold turn. cbn [m_parse_state].
    match goal with H : not_token c = false |- _ => rewrite H end. reflexivity. }
  eapply runs_app.
  { apply runs_of_run, method_run;
      [reflexivity | exact (Forall_inv_tail Hw) |].
    cbn -[Z.add size]. change (size [c]) with 1. unfold ceiling in Hsz. lia. }
  step. apply runs_nil.
Qed.

(** The resource, an optional query string, and the space after them. *)
Lemma target_segment (h : RequestHead) (m q hn hv : str) (req : HTTPRequest) :
  fits F_resource (head_resource h) ->
  match head_query h with Some s => fits F_query_string s | None => True end ->
  exists q',
    runs (mkParser PARSE_URI_STEM m [] q hn hv req) (target h ++ [SP])
         (mkParser PARSE_HTTP_VERSION_H m (head_resource h) q' hn hv
            (match head_query h with
             | Some s => setQueryString s (setResource (head_resource h) req)
             | None => setResource (head_resource h) req
             end)).
Proof.
  intros Hr Hq. unfold target.
  assert (Hres : runs (mkParser PARSE_URI_STEM m [] q hn hv req) (head_resource h)
                   (mkParser PARSE_URI_STEM m (head_resource h) q hn hv req)).
  { apply runs_of_run.
    rewrite resource_run; [reflexivity | reflexivity | apply Hr | apply (fits_size _ _ Hr)]. }
  destruct (head_query h) as [s|].
  - exists s. rewrite <- app_assoc. eapply runs_app; [exact Hres|].
    rewrite <- app_comm_cons. step.
    eapply runs_app.
    { apply runs_of_run.
      rewrite query_string_run;
        [reflexivity | reflexivity | apply Hq | apply (fits_size _ _ Hq)]. }
    step. apply runs_nil.
  - exists q. rewrite app_nil_r. eapply runs_app; [exact Hres|].
    step. apply runs_nil.
Qed.

(** A line terminator after the version or after a header value. *)
Lemma eol_after_version (eol : list octet) (m r q hn hv : str) (req : HTTPRequest) :
  In eol line_ends ->
  runs (mkParser PARSE_HTTP_VERSION_MINOR m r q hn hv req) eol
       (mkParser (line_start eol) m r q hn hv req).
Proof.
  intros [<-|[<-|[<-|[<-|[]]]]]; repeat step; apply runs_nil.
Qed.

Lemma eol_after_value (eol : list octet) (m r q hn hv : str) (req : HTTPRequest) :
  In eol line_ends ->
  runs (mkParser PARSE_HEADER_VALUE m r q hn hv req) eol
       (mkParser (line_start eol) m r q hn hv (addHeader hn hv req)).
Proof.
  intros [<-|[<-|[<-|[<-|[]]]]]; repeat step; apply runs_nil.
Qed.

(** One header line, from any state in which a token octet begins a header
    name. *)
Lemma header_line_from (st : ParseState) (eol n v m r q hn hv : str)
    (req : HTTPRequest) :
  name_start st = true -> In eol line_ends -> header_ok (n, v) ->
  runs (mkParser st m r q hn hv req) (header_line eol (n, v))
       (mkParser (line_start eol) m r q n v (addHeader n v req)).
Proof.
  intros Hst Heol (Hne & [Hn Hnsz] & Hv). cbn [fst snd] in *.
  unfold header_line. cbn [fst snd].
  destruct n as [|c n]; [contradiction|].
  pose proof (Forall_inv Hn) as Hc; cbv beta in Hc.
  rewrite size_cons in Hnsz.
  rewrite <- app_comm_cons.
  apply (runs_cons _ (mkParser PARSE_HEADER_NAME m r q [c] hv req)).
  { field_facts. destruct st; try discriminate Hst; turn_step. }
  eapply runs_app.
  { apply runs_of_run, header_name_run;
      [reflexivity | exact (Forall_inv_tail Hn) |].
    cbn -[Z.add size]. change (size [c]) with 1. unfold ceiling in Hnsz. lia. }
  do 2 step.
  eapply runs_app.
  { apply runs_of_run.
    rewrite header_value_run;
      [reflexivity | reflexivity | apply Hv | apply (fits_size _ _ Hv)]. }
  apply eol_after_value. exact Heol.
Qed.

Lemma line_start_begins_name (eol : list octet) :
  In eol line_ends -> name_start (line_start eol) = true.
Proof. intros [<-|[<-|[<-|[<-|[]]]]]; reflexivity. Qed.

Lemma header_line_run (eol n v m r q hn hv : str) (req : HTTPRequest) :
  In eol line_ends -> header_ok (n, v) ->
  runs (mkParser (line_start eol) m r q hn hv req) (header_line eol (n, v))
       (mkParser (line_start eol) m r q n v (addHeader n v req)).
Proof.
  intros Heol Hnv. apply header_line_from; auto using line_start_begins_name.
Qed.

Lemma blank_neq (c x : octet) :
  blank c = true -> blank x = false -> (c =? x) = false.
Proof. intros Hc Hx. destruct (Z.eqb_spec c x) as [->|]; congruence. Qed.

Lemma whitespace_run (ws m r q hn hv : str) (req : HTTPRequest) :
  Forall (fun c => blank c = true) ws ->
  runs (mkParser PARSE_HEADER_WHITESPACE m r q hn hv req) ws
       (mkParser PARSE_HEADER_WHITESPACE m r q hn hv req).
Proof.
  induction 1 as [|c ws Hc _ IH]; [apply runs_nil|].
  eapply runs_cons; [|exact IH].
  unfold turn. cbn [m_parse_state].
  rewrite (blank_neq c CR), (blank_neq c LF) by (assumption || reflexivity).
  unfold blank in Hc. apply orb_prop in Hc as [Hc|Hc]; rewrite Hc;
    rewrite ?andb_false_r; reflexivity.
Qed.

(** X5: no header folding.  A line that begins with spaces or tabs does not
    continue the header before it: the blanks are skipped and the line is
    taken as a header of its own, committed with the name and value that
    follow them. *)
Theorem indented_line_is_a_header
    (eol ws n v m r q hn hv : str) (req : HTTPRequest) :
  In eol line_ends -> header_ok (n, v) ->
  Forall (fun c => blank c = true) ws ->
  parseRequestHeaders (mkParser (line_start eol) m r q hn hv req)
    (ws ++ header_line eol (n, v)) =
  (indeterminate, length (ws ++ header_line eol (n, v)),
   mkParser (line_start eol) m r q n v (addHeader n v req)).
Proof.
  intros Heol Hnv Hws. fold (runs (mkParser (line_start eol) m r q hn hv req)
    (ws ++ header_line eol (n, v))
    (mkParser (line_start eol) m r q n v (addHeader n v req))).
  destruct ws as [|c ws].
  - now apply header_line_run.
  - rewrite <- app_comm_cons.
    apply (runs_cons _ (mkParser PARSE_HEADER_WHITESPACE m r q hn hv req)).
    { pose proof (Forall_inv Hws) as Hc; cbv beta in Hc.
      unfold turn.
      destruct Heol as [<-|[<-|[<-|[<-|[]]]]]; cbn [m_parse_state line_start];
        try change (LF =? LF) with true; try change (CR =? LF) with false;
        cbv iota;
        rewrite (blank_neq c CR), (blank_neq c LF) by (assumption || reflexivity);
        unfold blank in Hc; change (chr " ") with SP in Hc; rewrite Hc; reflexivity. }
    eapply runs_app; [apply whitespace_run; exact (Forall_inv_tail Hws)|].
    now apply header_line_from.
Qed.

Lemma indented_line_is_a_header_witness :
  parseRequestHeaders (mkParser (line_start [CR; LF]) [] [] [] [] [] new_request)
    ([SP; HT] ++ header_line [CR; LF] (bytes "Host", bytes "x")) =
  (indeterminate, length ([SP; HT] ++ header_line [CR; LF] (bytes "Host", bytes "x")),
   mkParser (line_start [CR; LF]) [] [] [] (bytes "Host") (bytes "x")
     (addHeader (bytes "Host") (bytes "x") new_request)).
Proof.
  apply (indented_line_is_a_header [CR; LF] [SP; HT] (bytes "Host") (bytes "x")
           [] [] [] [] [] new_request).
  - simpl. auto.
  - split; [discriminate|]. split; fits_concrete.
  - repeat constructor.
Defined.

Lemma header_lines_run (eol : list octet) (hs : list (str * str)) :
  In eol line_ends -> Forall header_ok hs ->
  forall m r q hn hv req,
  exists hn' hv',
    runs (mkParser (line_start eol) m r q hn hv req)
         (concat (map (header_line eol) hs))
         (mkParser (line_start eol) m r q hn' hv'
            (mkHTTPRequest (method req) (resource req) (query_string req)
               (version_major req) (version_minor req) (headers req ++ hs)
               (query_params req) (content_length req) (body_buffer req)
               (is_valid req))).
Proof.
  intros Heol Hhs. induction Hhs as [|[n v] hs Hnv Hhs IH]; intros m r q hn hv req.
  - exists hn, hv. rewrite app_nil_r. destruct req. apply runs_nil.
  - destruct (IH m r q n v (addHeader n v req)) as (hn' & hv' & Hrun).
    exists hn', hv'. cbn [map concat].
    eapply runs_app; [apply header_line_run; assumption|].
    cbn [addHeader method resource query_string version_major version_minor
         headers query_params content_length body_buffer is_valid] in Hrun.
    unfold dict_insert in Hrun. rewrite <- app_assoc in Hrun. exact Hrun.
Qed.

(** The empty line that ends the header block. *)
Lemma final_eol (eol rest : list octet) (m r q hn hv : str) (req : HTTPRequest) :
  In eol line_ends ->
  exists st,
    parseRequestHeaders (mkParser (line_start eol) m r q hn hv req) (eol ++ rest) =
    (tri_true, length eol, mkParser st m r q hn hv req).
Proof.
  intros [<-|[<-|[<-|[<-|[]]]]]; eexists; reflexivity.
Qed.

Lemma parse_serialize_run (eol : list octet) (h : RequestHead) (rest : list octet) :
  In eol line_ends -> head_ok h ->
  exists q,
    parseRequestHeaders new_parser (serialize eol h ++ rest) =
      (tri_true, length (serialize eol h), q) /\
    m_http_request q = request_of h.
Proof.
  intros Heol (Hmne & Hm & Hr & Hq & Hdj & Hdn & Hhs).
  destruct (target_segment h (head_method h) [] [] []
              (setMethod (head_method h) new_request) Hr Hq) as (q' & Htarget).
  destruct (header_lines_run eol (head_headers h) Heol Hhs
              (head_method h) (head_resource h) q' [] []
              (setVersionMinor (decimal (head_minor h))
                 (setVersionMajor (decimal (head_major h))
                    (match head_query h with
                     | Some s => setQueryString s
                                   (setResource (head_resource h)
                                      (setMethod (head_method h) new_request))
                     | None => setResource (head_resource h)
                                 (setMethod (head_method h) new_request)
                     end))))
    as (hn' & hv' & Hlines).
  match type of Hlines with runs _ _ ?p =>
    destruct (final_eol eol rest (m_method p) (m_resource p) (m_query_string p)
                (m_header_name p) (m_header_value p) (m_http_request p) Heol)
      as (st & Hfinal)
  end.
  cbn [m_method m_resource m_query_string m_header_name m_header_value
       m_http_request] in Hfinal.
  eexists. split.
  - unfold serialize.
    replace ((head_method h ++ SP :: target h ++ SP :: bytes "HTTP/" ++
              head_major h ++ chr "." :: head_minor h ++ eol ++
              concat (map (header_line eol) (head_headers h)) ++ eol) ++ rest)
      with (((head_method h ++ [SP]) ++ (target h ++ [SP]) ++
             (bytes "HTTP/" ++ head_major h ++ chr "." :: head_minor h) ++ eol ++
             concat (map (header_line eol) (head_headers h))) ++ eol ++ rest).
    2:{ repeat (rewrite <- ?app_assoc, <- ?app_comm_cons; cbn [app]). reflexivity. }
    replace (length (head_method h ++ SP :: target h ++ SP :: bytes "HTTP/" ++
              head_major h ++ chr "." :: head_minor h ++ eol ++
              concat (map (header_line eol) (head_headers h)) ++ eol))
      with (length ((head_method h ++ [SP]) ++ (target h ++ [SP]) ++
             (bytes "HTTP/" ++ head_major h ++ chr "." :: head_minor h) ++ eol ++
             concat (map (header_line eol) (head_headers h))) + length eol)%nat.
    2:{ rewrite <- length_app. f_equal.
        repeat (rewrite <- ?app_assoc, <- ?app_comm_cons; cbn [app]). reflexivity. }
    eapply runs_then_true; [|exact Hfinal].
    eapply runs_app; [apply method_segment; assumption|].
    eapply runs_app; [exact Htarget|].
    eapply runs_app; [apply version_run; assumption|].
    eapply runs_app; [apply eol_after_version; assumption|].
    exact Hlines.
  - cbn [m_http_request]. unfold request_of.
    destruct (head_query h); reflexivity.
Qed.

(** X6: round trip.  A head with a non-empty token method, a resource and
    an optional query string within their ceilings, version numbers written
    as decimal digits, and headers with non-empty token names and values
    free of control octets, written with any one of the four line
    terminators and followed by any octets, is accepted by a fresh machine
    in one call; [ptr] stops right after the empty line, and the request
    holds exactly the fields of the head, the version numbers modulo 2^32. *)
Theorem parse_serialize (eol : list octet) (h : RequestHead) (rest : list octet) :
  In eol line_ends -> head_ok h ->
  exists q,
    parseRequestHeaders new_parser (serialize eol h ++ rest) =
      (tri_true, length (serialize eol h), q) /\
    m_http_request q = request_of h.
Proof. apply parse_serialize_run. Qed.

Lemma S1_head_ok : head_ok S1_head.
Proof.
  unfold head_ok, S1_head.
  cbn [head_method head_resource head_query head_major head_minor head_headers].
  split; [discriminate|].
  split; [fits_concrete|]. split; [fits_concrete|]. split; [exact I|].
  split; [split; [discriminate | repeat constructor]|].
  split; [split; [discriminate | repeat constructor]|].
  constructor; [|constructor].
  split; [discriminate|]. split; fits_concrete.
Qed.

Lemma parse_serialize_witness :
  exists q,
    parseRequestHeaders new_parser (serialize [LF; CR] S1_head ++ bytes "body") =
      (tri_true, length (serialize [LF; CR] S1_head), q) /\
    m_http_request q = request_of S1_head.
Proof.
  apply (parse_serialize [LF; CR] S1_head (bytes "body")).
  - simpl. auto.
  - exact S1_head_ok.
Defined.
(** * Further properties of the form decoder *)

Lemma query_start_ok (d : StringDictionary) : locals_ok (query_start d).
Proof.
  unfold locals_ok, query_start. cbn.
  repeat match goal with |- _ /\ _ => split end;
    try apply fits_nil; try reflexivity; discriminate.
Qed.

Lemma not_empty (s : str) : empty s = false -> s <> [].
Proof. destruct s; [discriminate | discriminate]. Qed.

Lemma query_turn_keeps_ok (l l' : QueryLocals) (c : octet) :
  locals_ok l -> query_turn l c = Some l' ->
  locals_ok l' /\ exists added, dict l' = dict l ++ added /\ Forall pair_ok added.
Proof.
  intros (Hn & Hv & Hve & Hnne) H.
  destruct l as [st n v d]. cbn [parse_state query_name query_value dict] in *.
  unfold query_turn in H. cbn [parse_state query_name query_value dict] in H.
  destruct st;
    repeat match type of H with
    | context [if ?b then _ else _] =>
        let E := fresh "E" in destruct b eqn:E
    end;
    try discriminate H; injection H as <-;
    repeat match goal with
    | E : _ || _ = false |- _ => apply orb_false_elim in E; destruct E
    end;
    split.
  all: try (exists []; split; [now rewrite app_nil_r | constructor]).
  all: try (unfold locals_ok; cbn [parse_state query_name query_value dict];
            repeat match goal with |- _ /\ _ => split end;
            try inv_goal; try (intros; discriminate);
            intros _; now apply not_empty).
  all: unfold dict_insert; eexists; (split; [reflexivity|]);
       constructor; [|constructor]; unfold pair_ok; cbn [fst snd];
       repeat match goal with |- _ /\ _ => split end;
       try assumption; try (rewrite (Hve eq_refl); apply fits_nil);
       try (apply Hnne; reflexivity); now apply not_empty.
Qed.

Lemma query_loop_keeps_ok (s : list octet) : forall l b l',
  locals_ok l -> query_loop l s = (b, l') ->
  locals_ok l' /\ exists added, dict l' = dict l ++ added /\ Forall pair_ok added.
Proof.
  induction s as [|c s IH]; intros l b l' Hok; simpl.
  - intros [= _ <-]. split; [assumption|]. exists []. split; [now rewrite app_nil_r | constructor].
  - destruct (query_turn l c) as [l1|] eqn:E.
    + intros H. destruct (query_turn_keeps_ok _ _ _ Hok E) as (Hok1 & a1 & Hd1 & Ha1).
      destruct (IH _ _ _ Hok1 H) as (Hok' & a2 & Hd2 & Ha2).
      split; [assumption|]. exists (a1 ++ a2). split.
      * now rewrite Hd2, Hd1, app_assoc.
      * apply Forall_app. auto.
    + intros [= _ <-]. split; [assumption|]. exists [].
      split; [now rewrite app_nil_r | constructor].
Qed.

(** X7: whether it returns true or false, [parseURLEncoded] leaves the
    entries the dictionary had in place and in order, and every pair it
    appends has a non-empty name of at most 1,024 octets without [=], [&]
    or control octets and a value of at most 1,048,576 octets without [&]
    or control octets. *)
Theorem decoder_appends_well_formed_pairs (d : StringDictionary) (s : list octet) :
  exists added,
    snd (parseURLEncoded d s) = d ++ added /\ Forall pair_ok added.
Proof.
  unfold parseURLEncoded.
  destruct (query_loop (query_start d) s) as [b l] eqn:E.
  destruct (query_loop_keeps_ok _ _ _ _ (query_start_ok d) E)
    as ((Hn & Hv & Hve & Hnne) & added & Hd & Ha).
  cbn [dict query_start] in Hd.
  destruct b; cbn [snd]; [|eauto].
  destruct (query_name l) as [|c n] eqn:En; cbn [empty negb]; [eauto|].
  exists (added ++ [(c :: n, query_value l)]). split.
  - unfold dict_insert. now rewrite Hd, app_assoc.
  - apply Forall_app. split; [assumption|].
    constructor; [|constructor]. unfold pair_ok. cbn [fst snd].
    repeat match goal with |- _ /\ _ => split end; try assumption. discriminate.
Qed.

Lemma control_turn (l : QueryLocals) (c : octet) :
  isControl c = true -> query_turn l c = None.
Proof.
  intros Hc. unfold query_turn.
  assert (Heq : (c =? chr "=") = false).
  { destruct (Z.eqb_spec c (chr "=")) as [->|]; [discriminate Hc | reflexivity]. }
  assert (Hamp : (c =? chr "&") = false).
  { destruct (Z.eqb_spec c (chr "&")) as [->|]; [discriminate Hc | reflexivity]. }
  destruct (parse_state l); now rewrite ?Heq, Hamp, Hc.
Qed.

Lemma control_stops_loop (c : octet) (s : list octet) : forall l,
  In c s -> isControl c = true -> fst (query_loop l s) = false.
Proof.
  induction s as [|x s IH]; intros l Hin Hc; [contradiction|].
  simpl. destruct (query_turn l x) as [l'|] eqn:E; [|reflexivity].
  destruct Hin as [->|Hin].
  - now rewrite control_turn in E.
  - now apply IH.
Qed.

(** X8: an input with a control octet anywhere in it is refused, whatever
    else it holds. *)
Theorem control_octet_refused (d : StringDictionary) (s : list octet) (c : octet) :
  In c s -> isControl c = true -> fst (parseURLEncoded d s) = false.
Proof.
  intros Hin Hc. unfold parseURLEncoded.
  pose proof (control_stops_loop c s (query_start d) Hin Hc) as H.
  destruct (query_loop (query_start d) s) as [[] l]; [discriminate H | reflexivity].
Qed.

Lemma control_octet_refused_witness :
  fst (parseURLEncoded [] (bytes "a=1" ++ LF :: bytes "b=2")) = false.
Proof.
  apply (control_octet_refused [] (bytes "a=1" ++ LF :: bytes "b=2") LF).
  - simpl. auto 10.
  - reflexivity.
Defined.

Lemma loop_refused_app (a b : list octet) (l : QueryLocals) :
  (forall l', query_loop l a = (true, l') -> fst (query_loop l' b) = false) ->
  fst (query_loop l (a ++ b)) = false.
Proof.
  intros H. rewrite query_loop_app.
  destruct (query_loop l a) as [[] l'] eqn:E; [now apply H | reflexivity].
Qed.

Lemma empty_name_turn (v : str) (d : StringDictionary) (x : octet) :
  x = chr "=" \/ x = chr "&" ->
  query_turn (mkQueryLocals QUERY_PARSE_NAME [] v d) x = None.
Proof. intros [->| ->]; reflexivity. Qed.

Lemma ampersand_turn (l l' : QueryLocals) :
  query_turn l (chr "&") = Some l' ->
  parse_state l' = QUERY_PARSE_NAME /\ query_name l' = [].
Proof.
  unfold query_turn. destruct (parse_state l); cbn [Z.eqb chr].
  - change (chr "&" =? chr "=") with false. change (chr "&" =? chr "&") with true.
    cbv iota. destruct (empty (query_name l)); [discriminate|].
    intros [= <-]. auto.
  - change (chr "&" =? chr "&") with true. cbv iota. intros [= <-]. auto.
Qed.

(** X9: a pair without a name is refused wherever it stands: an input that
    begins with [=] or [&], or in which [&] is followed by [=] or [&], makes
    [parseURLEncoded] return false. *)
Theorem empty_name_refused (d : StringDictionary) (a b : list octet) (x : octet) :
  x = chr "=" \/ x = chr "&" ->
  fst (parseURLEncoded d (x :: b)) = false /\
  fst (parseURLEncoded d (a ++ chr "&" :: x :: b)) = false.
Proof.
  intros Hx. unfold parseURLEncoded. split.
  - cbn [query_loop]. unfold query_start. now rewrite empty_name_turn.
  - pose proof (loop_refused_app a (chr "&" :: x :: b) (query_start d)) as H.
    destruct (query_loop (query_start d) (a ++ chr "&" :: x :: b)) as [[] l];
      [|reflexivity].
    cbn [fst] in H. discriminate H.
    intros l' _. cbn [query_loop].
    destruct (query_turn l' (chr "&")) as [l1|] eqn:E; [|reflexivity].
    apply ampersand_turn in E as [Hst Hn].
    destruct l1 as [st n v d1]. cbn in Hst, Hn. subst.
    now rewrite empty_name_turn.
Qed.

Lemma empty_name_refused_witness :
  fst (parseURLEncoded [] (bytes "=b")) = false /\
  fst (parseURLEncoded [] (bytes "a=1" ++ chr "&" :: chr "=" :: bytes "b")) = false.
Proof.
  apply (empty_name_refused [] (bytes "a=1") (bytes "b") (chr "=")).
  left. reflexivity.
Defined.

(** One [name=value] run for a pair the decoder could have committed. *)
Lemma pair_ok_run (n v : str) (d : StringDictionary) :
  pair_ok (n, v) ->
  query_loop (query_start d) (n ++ chr "=" :: v) =
  (true, mkQueryLocals QUERY_PARSE_VALUE n v d).
Proof.
  intros (Hne & [Hn Hsn] & [Hv Hsv]). cbn [fst snd] in *.
  unfold query_start.
  rewrite query_loop_app, query_name_run by (assumption || size_arith).
  cbn [app query_loop]. unfold query_turn. cbn [parse_state query_name].
  rewrite Z.eqb_refl. destruct n as [|c n]; [contradiction|]. cbn [empty].
  rewrite query_value_run by (assumption || size_arith).
  reflexivity.
Qed.

Lemma pair_ok_then_more (n v : str) (d : StringDictionary) (rest : list octet) :
  pair_ok (n, v) ->
  query_loop (query_start d) (n ++ chr "=" :: v ++ chr "&" :: rest) =
  query_loop (query_start (d ++ [(n, v)])) rest.
Proof.
  intros Hp.
  change (n ++ chr "=" :: v ++ chr "&" :: rest)
    with (n ++ (chr "=" :: v) ++ chr "&" :: rest).
  rewrite app_assoc, query_loop_app, pair_ok_run by assumption.
  reflexivity.
Qed.

Lemma decode_encode_ok (pairs : list (str * str)) : forall d,
  Forall pair_ok pairs ->
  parseURLEncoded d (encode pairs) = (true, d ++ pairs).
Proof.
  induction pairs as [|[n v] more IH]; intros d Hall.
  - unfold parseURLEncoded. simpl. now rewrite app_nil_r.
  - pose proof (Forall_inv Hall) as Hp.
    pose proof (Forall_inv_tail Hall) as Hmore.
    destruct more as [|nv2 more].
    + unfold parseURLEncoded. cbn [encode].
      rewrite pair_ok_run by assumption.
      destruct Hp as (Hne & _). cbn [fst] in Hne.
      destruct n; [contradiction|]. reflexivity.
    + specialize (IH (d ++ [(n, v)]) Hmore).
      unfold parseURLEncoded in *.
      change (encode ((n, v) :: nv2 :: more))
        with (n ++ chr "=" :: v ++ chr "&" :: encode (nv2 :: more)).
      rewrite pair_ok_then_more by assumption.
      rewrite IH. now rewrite <- app_assoc.
Qed.

(** X10: round trip under the decoder's own conditions.  Every list of pairs
    that [parseURLEncoded] could have committed (values may contain [=]) is
    read back from its encoding: the call returns true and appends exactly
    those pairs, in order, to the dictionary it is given. *)
Theorem decode_encode_any_dictionary (d : StringDictionary) (pairs : list (str * str)) :
  Forall pair_ok pairs ->
  parseURLEncoded d (encode pairs) = (true, d ++ pairs).
Proof. intros H. now apply decode_encode_ok. Qed.

Lemma decode_encode_any_dictionary_witness :
  parseURLEncoded [(bytes "k", bytes "v")] (encode [(bytes "a", bytes "b=c")]) =
  (true, [(bytes "k", bytes "v")] ++ [(bytes "a", bytes "b=c")]).
Proof.
  apply (decode_encode_any_dictionary [(bytes "k", bytes "v")]
           [(bytes "a", bytes "b=c")]).
  repeat constructor; try discriminate.
Defined.

Lemma last_turn_leaves_name (l l' : QueryLocals) (c : octet) :
  locals_ok l -> query_turn l c = Some l' -> c <> chr "&" -> query_name l' <> [].
Proof.
  intros (_ & _ & _ & Hnne) H Hc.
  apply Z.eqb_neq in Hc.
  destruct l as [st n v d]. cbn [parse_state query_name] in *.
  unfold query_turn in H. cbn [parse_state query_name query_value dict] in H.
  rewrite Hc in H.
  destruct st;
    repeat match type of H with
    | context [if ?b then _ else _] =>
        let E := fresh "E" in destruct b eqn:E
    end;
    try discriminate H; injection H as <-; cbn [query_name];
    first [ now apply not_empty | apply push_back_not_nil | now apply Hnne ].
Qed.

(** X11: two encoded strings decoded one after the other give what their
    join by [&] gives: when [parseURLEncoded] accepts a non-empty [s1] that
    does not end in [&], decoding [s1 & s2] is decoding [s2] into the
    dictionary that [s1] left. *)
Theorem decode_joined (d d1 : StringDictionary) (s1 s2 : list octet) :
  parseURLEncoded d s1 = (true, d1) ->
  s1 <> [] -> last s1 0 <> chr "&" ->
  parseURLEncoded d (s1 ++ chr "&" :: s2) = parseURLEncoded d1 s2.
Proof.
  intros H Hne Hlast.
  destruct (exists_last Hne) as (s' & c & ->).
  rewrite last_last in Hlast.
  unfold parseURLEncoded in *.
  rewrite query_loop_app.
  destruct (query_loop (query_start d) (s' ++ [c])) as [[] l] eqn:E;
    [|discriminate H].
  assert (Hok : locals_ok l)
    by (eapply query_loop_keeps_ok; [apply query_start_ok | exact E]).
  assert (Hname : query_name l <> []).
  { rewrite query_loop_app in E.
    destruct (query_loop (query_start d) s') as [[] l'] eqn:E'; [|discriminate E].
    cbn [query_loop] in E.
    destruct (query_turn l' c) as [l1|] eqn:Et; [|discriminate E].
    injection E as ->.
    eapply last_turn_leaves_name; [|exact Et|exact Hlast].
    eapply query_loop_keeps_ok; [apply query_start_ok | exact E']. }
  destruct Hok as (_ & _ & Hve & _).
  destruct l as [st n v dl]. cbn [parse_state query_name query_value dict] in *.
  destruct n as [|x n]; [contradiction|]. cbn [empty negb] in H.
  injection H as <-.
  cbn [query_loop]. unfold query_turn. cbn [parse_state query_name query_value dict].
  change (chr "&" =? chr "=") with false. change (chr "&" =? chr "&") with true.
  destruct st; cbv iota; cbn [empty].
  - rewrite (Hve eq_refl). reflexivity.
  - reflexivity.
Qed.

Lemma decode_joined_witness :
  parseURLEncoded [] (bytes "a=1" ++ chr "&" :: bytes "b=2") =
  parseURLEncoded [(bytes "a", bytes "1")] (bytes "b=2").
Proof.
  apply (decode_joined [] [(bytes "a", bytes "1")] (bytes "a=1") (bytes "b=2")).
  - reflexivity.
  - discriminate.
  - discriminate.
Defined.

(** * Further properties of the reader *)

(** X12: the pairs of the query string come first, those of a url-encoded
    body after them: with both written as encodings of committable pair
    lists, the handler finds the old entries, then the query string's
    pairs, then the body's, and [is_valid] true. *)
Theorem uri_pairs_then_body_pairs (r : HTTPRequest) (uri body : list (str * str)) :
  Forall pair_ok uri -> Forall pair_ok body ->
  query_string r = encode uri ->
  getHeader HEADER_CONTENT_TYPE r = CONTENT_TYPE_URLENCODED ->
  getPostContent r = encode body ->
  query_params (completed r) = query_params r ++ uri ++ body /\
  is_valid (completed r) = true.
Proof.
  intros Huri Hbody Hq Hct Hpc. split.
  2:{ destruct (completed_same r) as (_ & _ & _ & _ & _ & _ & _ & _ & Hv).
      now rewrite <- Hv. }
  unfold completed.
  pose proof (decodeQueryString_same (setIsValid true r)) as Hsame.
  assert (Hq2 : query_params (decodeQueryString (setIsValid true r)) =
                query_params r ++ uri).
  { unfold decodeQueryString. cbn [query_string setIsValid query_params].
    pose proof (decode_encode_ok uri (query_params r) Huri) as Hd.
    rewrite <- Hq in Hd.
    destruct (query_string r) as [|c s] eqn:Es; cbn [empty negb].
    - cbn [query_params setIsValid]. unfold parseURLEncoded in Hd.
      cbn in Hd. now injection Hd.
    - cbn [query_params setQueryParams]. now rewrite Hd. }
  set (r2 := decodeQueryString (setIsValid true r)) in *.
  destruct Hsame as (_ & _ & _ & _ & _ & Hh & Hcl & Hbb & _).
  cbn [headers content_length body_buffer setIsValid] in Hh, Hcl, Hbb.
  unfold decodePostContent.
  assert (Hg : getHeader HEADER_CONTENT_TYPE r2 = CONTENT_TYPE_URLENCODED)
    by (unfold getHeader in *; now rewrite <- Hh).
  assert (Hp : getPostContent r2 = encode body)
    by (unfold getPostContent in *; now rewrite <- Hcl, <- Hbb).
  rewrite Hg, Hp. unfold str_eqb.
  destruct (list_eq_dec Z.eq_dec CONTENT_TYPE_URLENCODED CONTENT_TYPE_URLENCODED);
    [|contradiction].
  cbn [query_params setQueryParams].
  rewrite decode_encode_ok by assumption. cbn [snd].
  now rewrite Hq2, <- app_assoc.
Qed.

Lemma uri_pairs_then_body_pairs_witness :
  query_params (completed merge_request) =
    query_params merge_request ++ [(bytes "a", bytes "1")] ++
    [(bytes "k", bytes "v"); (bytes "x", bytes "y")] /\
  is_valid (completed merge_request) = true.
Proof.
  apply (uri_pairs_then_body_pairs merge_request [(bytes "a", bytes "1")]
           [(bytes "k", bytes "v"); (bytes "x", bytes "y")]).
  - repeat constructor; try discriminate.
  - repeat constructor; try discriminate.
  - reflexivity.
  - reflexivity.
  - reflexivity.
Defined.

(** X13: once a call has returned true or false, nothing behind the octet it
    stopped at has been looked at: the same call with any other octets
    there returns the same answer, count and parser. *)
Theorem decided_call_ignores_rest
    (p q : Parser) (a b : list octet) (r : tribool) (k : nat) :
  parseRequestHeaders p a = (r, k, q) -> r <> indeterminate ->
  parseRequestHeaders p (firstn (S k) a ++ b) = (r, k, q).
Proof.
  intros H Hr.
  assert (Hcut : forall s p, parseRequestHeaders p s = (r, k, q) ->
                 parseRequestHeaders p (firstn (S k) s) = (r, k, q)).
  { clear H a p. intros s. revert k.
    induction s as [|c s IH]; intros k p; simpl.
    - intros [= <- _ _]. now contradiction Hr.
    - destruct (turn p c) as [p'| adv |] eqn:E.
      + destruct (parseRequestHeaders p' s) as [[r' n'] q'] eqn:E'.
        intros [= -> <- ->]. now rewrite (IH n' p' E').
      + intros [= <- <- <-]. reflexivity.
      + intros [= <- <- <-]. reflexivity. }
  rewrite parse_app, (Hcut a p H).
  destruct r; [reflexivity | reflexivity | now contradiction Hr].
Qed.

Lemma decided_call_ignores_rest_witness :
  parseRequestHeaders new_parser (firstn 8 S7_input ++ bytes "anything") =
  (tri_false, 7%nat, snd (parseRequestHeaders new_parser S7_input)).
Proof.
  apply (decided_call_ignores_rest new_parser
           (snd (parseRequestHeaders new_parser S7_input)) S7_input
           (bytes "anything") tri_false 7).
  - vm_compute. reflexivity.
  - discriminate.
Defined.

(** X14: one completion, at most one call.  [readHeaderBytes] calls
    [finish] exactly when the read failed, reads on exactly when the machine
    wants more octets, and invokes the handler exactly when the machine
    refused (with [is_valid] false) or accepted a request whose declared
    content length is 0 (with the completed request); it never does two of
    these. *)
Theorem one_call_per_completion
    (new_char : Z -> list octet) (read_error : option asio_error)
    (p : Parser) (buf : list octet) :
  let o := fst (fst (parseRequestHeaders p buf)) in
  let q := snd (parseRequestHeaders p buf) in
  let calls := snd (readHeaderBytes new_char read_error p buf) in
  (length calls <= 1)%nat /\
  (In finish calls <-> read_error <> None) /\
  (In async_read_some calls <-> read_error = None /\ o = indeterminate) /\
  (forall r, In (request_handler r) calls <->
     read_error = None /\
     ((o = tri_false /\ r = setIsValid false (m_http_request q)) \/
      (o = tri_true /\ declared_content_length (m_http_request q) = 0 /\
       r = completed (m_http_request q)))).
Proof.
  cbv zeta. unfold readHeaderBytes.
  destruct read_error as [e|].
  { cbn. repeat split; try lia; try tauto; try discriminate;
      intros; intuition discriminate. }
  destruct (parseRequestHeaders p buf) as [[o k] q]. cbn [fst snd].
  destruct o.
  - destruct (Z.eqb_spec (declared_content_length (m_http_request q)) 0) as [H0|H0].
    + cbn. repeat split; try lia; try discriminate;
        intros; intuition (try discriminate; try congruence).
    + destruct (take_residual _ _ _ _) as [[r' off] n]. cbn [snd].
      destruct (negb (n =? 0)); cbn;
        repeat split; try lia; try discriminate;
        intros; intuition (try discriminate; try congruence).
  - cbn. repeat split; try lia; try discriminate;
      intros; intuition (try discriminate; try congruence).
  - cbn. repeat split; try lia; try discriminate;
      intros; intuition (try discriminate; try congruence).
Qed.

Lemma body_free_outcome (new_char : Z -> list octet) (p1 p2 : Parser)
    (a b : list octet) (o : tribool) (k k' : nat) (q : Parser) :
  parseRequestHeaders p1 a = (o, k, q) ->
  parseRequestHeaders p2 b = (o, k', q) ->
  (o = tri_true -> declared_content_length (m_http_request q) = 0) ->
  readHeaderBytes new_char None p1 a = readHeaderBytes new_char None p2 b.
Proof.
  intros Ha Hb H0. unfold readHeaderBytes. rewrite Ha, Hb.
  destruct o; try reflexivity.
  now rewrite (H0 eq_refl).
Qed.

Lemma read_loop_concat (new_char : Z -> list octet) (parts : list (list octet)) :
  forall p,
  (fst (fst (parseRequestHeaders p (concat parts))) = tri_true ->
   declared_content_length
     (m_http_request (snd (parseRequestHeaders p (concat parts)))) = 0) ->
  read_loop new_char p parts = readHeaderBytes new_char None p (concat parts).
Proof.
  induction parts as [|part more IH]; intros p H0.
  - reflexivity.
  - cbn [read_loop concat] in *. rewrite parse_app in H0.
    destruct (parseRequestHeaders p part) as [[o k] q] eqn:E.
    destruct o.
    + cbn [fst snd] in H0.
      rewrite (body_free_outcome new_char p p (part ++ concat more) part tri_true k k q);
        [ | now rewrite parse_app, E | exact E | exact H0 ].
      unfold readHeaderBytes. rewrite E, (H0 eq_refl). reflexivity.
    + rewrite (body_free_outcome new_char p p (part ++ concat more) part tri_false k k q);
        [ | now rewrite parse_app, E | exact E | discriminate ].
      unfold readHeaderBytes. rewrite E. reflexivity.
    + assert (Hstep : readHeaderBytes new_char None p part = (q, [async_read_some]))
        by (unfold readHeaderBytes; now rewrite E).
      rewrite Hstep.
      destruct (parseRequestHeaders q (concat more)) as [[o' k'] q'] eqn:E'.
      cbn [fst snd] in H0.
      rewrite IH by (now rewrite E').
      apply (body_free_outcome new_char q p (concat more) (part ++ concat more)
               o' k' (k + k')%nat q'); [exact E' | now rewrite parse_app, E, E' | exact H0].
Qed.

(** X15: where the network cuts the header stream does not matter.  If the
    whole stream makes [readHeaderBytes] ask for more, refuse, or accept a
    request with declared content length 0, then reading it in any number
    of pieces, empty ones included, ends with the same parser and the same
    call as reading it at once. *)
Theorem reads_cut_anywhere
    (new_char : Z -> list octet) (p : Parser) (parts : list (list octet)) :
  (fst (fst (parseRequestHeaders p (concat parts))) = tri_true ->
   declared_content_length
     (m_http_request (snd (parseRequestHeaders p (concat parts)))) = 0) ->
  read_loop new_char p parts = readHeaderBytes new_char None p (concat parts).
Proof. apply read_loop_concat. Qed.

Lemma reads_cut_anywhere_witness :
  read_loop zero_filled new_parser
    [bytes "GET /a HT"; []; bytes "TP/1.0"; LF :: bytes "Host: y" ++ [LF; LF]] =
  readHeaderBytes zero_filled None new_parser
    (concat [bytes "GET /a HT"; []; bytes "TP/1.0"; LF :: bytes "Host: y" ++ [LF; LF]]).
Proof.
  apply (reads_cut_anywhere zero_filled new_parser
           [bytes "GET /a HT"; []; bytes "TP/1.0"; LF :: bytes "Host: y" ++ [LF; LF]]).
  intros _. vm_compute. reflexivity.
Defined.

(** X16: a head without body, read at once.  When the read buffer begins with
    a well-formed head, in any of the four line terminators, that has no
    Content-Length header, [readHeaderBytes] invokes the handler once, with
    the completed request of that head, valid, whatever octets follow the
    head in the buffer. *)
Theorem head_without_body_is_delivered
    (new_char : Z -> list octet) (eol : list octet) (h : RequestHead)
    (rest : list octet) :
  In eol line_ends -> head_ok h ->
  hasHeader HEADER_CONTENT_LENGTH (request_of h) = false ->
  snd (readHeaderBytes new_char None new_parser (serialize eol h ++ rest)) =
    [request_handler (completed (request_of h))] /\
  is_valid (completed (request_of h)) = true /\
  committed_fields (completed (request_of h)) = committed_fields (request_of h).
Proof.
  intros Heol Hh Hcl.
  destruct (parse_serialize_run eol h rest Heol Hh) as (q & Hparse & Hreq).
  repeat split.
  - unfold readHeaderBytes. rewrite Hparse.
    unfold declared_content_length. rewrite Hreq, Hcl.
    change (0 =? 0) with true. cbv iota.
    unfold readContentBytes. cbn [snd]. now rewrite Hreq.
  - destruct (completed_same (request_of h)) as (_ & _ & _ & _ & _ & _ & _ & _ & Hv).
    now rewrite <- Hv.
  - destruct (completed_same (request_of h))
      as (H1 & H2 & H3 & H4 & H5 & H6 & _).
    unfold committed_fields.
    cbn [setIsValid method resource query_string version_major version_minor headers]
      in H1, H2, H3, H4, H5, H6.
    congruence.
Qed.

Lemma head_without_body_is_delivered_witness :
  snd (readHeaderBytes zero_filled None new_parser
         (serialize [CR; LF] S1_head ++ [])) =
    [request_handler (completed (request_of S1_head))] /\
  is_valid (completed (request_of S1_head)) = true /\
  committed_fields (completed (request_of S1_head)) =
    committed_fields (request_of S1_head).
Proof.
  apply (head_without_body_is_delivered zero_filled [CR; LF] S1_head []).
  - simpl. auto.
  - exact S1_head_ok.
  - reflexivity.
Defined.

Lemma digits_value_all (ds : list octet) : forall a,
  Forall (fun c => isDigit c = true) ds ->
  digits_value a ds = fold_left (fun a c => a * 10 + (c - chr "0")) ds a.
Proof.
  induction ds as [|c ds IH]; intros a Hds; [reflexivity|].
  cbn [digits_value fold_left]. rewrite (Forall_inv Hds).
  apply IH. exact (Forall_inv_tail Hds).
Qed.

(** X17: a Content-Length value written as decimal digits is taken at its
    decimal value, whatever its size, up to the largest [unsigned long];
    [POST_CONTENT_MAX] plays no part. *)
Theorem content_length_is_decimal (r : HTTPRequest) (ds : list octet) :
  hasHeader HEADER_CONTENT_LENGTH r = true ->
  getHeader HEADER_CONTENT_LENGTH r = ds ->
  digits ds ->
  declared_content_length r = Z.min (decimal ds) ULONG_MAX.
Proof.
  intros Hhas Hget [Hne Hds].
  unfold declared_content_length. rewrite Hhas, Hget.
  destruct ds as [|c ds]; [contradiction|].
  pose proof (Forall_inv Hds) as Hc; cbv beta in Hc.
  assert (Hsp : isspace c = false).
  { destruct (isspace c) eqn:E; [|reflexivity].
    unfold isspace, isDigit in *.
    change SP with 32 in E. change HT with 9 in E. change CR with 13 in E.
    change (chr "0") with 48 in Hc. change (chr "9") with 57 in Hc. lia. }
  unfold strtoul. cbn [skip_space]. rewrite Hsp.
  rewrite (digit_neq c (chr "-")), (digit_neq c (chr "+")) by (assumption || reflexivity).
  unfold unsigned_value. rewrite Hc.
  rewrite digits_value_all by assumption. fold (decimal (c :: ds)).
  destruct (Z.gtb_spec (decimal (c :: ds)) ULONG_MAX); lia.
Qed.

Lemma content_length_is_decimal_witness :
  declared_content_length merge_request = Z.min (decimal (bytes "7")) ULONG_MAX.
Proof.
  apply (content_length_is_decimal merge_request (bytes "7")).
  - reflexivity.
  - reflexivity.
  - split; [discriminate | repeat constructor].
Defined.

(** * PionPlugin *)

(** X18: [create] throws [PluginUndefinedException] exactly when the plug-in
    is not open or the create function of its data is NULL, and otherwise
    calls that function; [destroy] likewise with the destroy function.  A
    plug-in that is not open has an empty name. *)
Theorem plugin_calls_need_loaded_functions (p : PionPlugin.PionPlugin) :
  (PionPlugin.create p = inl PionPlugin.PluginUndefinedException <->
   PionPlugin.is_open p = false \/
   exists d, PionPlugin.m_plugin_data p = Some d /\
             PionPlugin.m_create_func d = PionPlugin.NULL) /\
  (PionPlugin.destroy p = inl PionPlugin.PluginUndefinedException <->
   PionPlugin.is_open p = false \/
   exists d, PionPlugin.m_plugin_data p = Some d /\
             PionPlugin.m_destroy_func d = PionPlugin.NULL) /\
  (forall f, PionPlugin.create p = inr f ->
     exists d, PionPlugin.m_plugin_data p = Some d /\ PionPlugin.m_create_func d = f) /\
  (forall f, PionPlugin.destroy p = inr f ->
     exists d, PionPlugin.m_plugin_data p = Some d /\ PionPlugin.m_destroy_func d = f) /\
  (PionPlugin.is_open p = false -> PionPlugin.getPluginName p = []).
Proof.
  unfold PionPlugin.create, PionPlugin.destroy, PionPlugin.getCreateFunction,
    PionPlugin.getDestroyFunction, PionPlugin.is_open, PionPlugin.getPluginName.
  destruct p as [[d|]]; cbn [PionPlugin.m_plugin_data].
  - repeat split.
    + destruct (Z.eqb_spec (PionPlugin.m_create_func d) PionPlugin.NULL);
        [eauto | discriminate].
    + intros [H|(d' & [= <-] & H)]; [discriminate|]. now rewrite H.
    + destruct (Z.eqb_spec (PionPlugin.m_destroy_func d) PionPlugin.NULL);
        [eauto | discriminate].
    + intros [H|(d' & [= <-] & H)]; [discriminate|]. now rewrite H.
    + intros f. destruct (_ =? _); [discriminate|]. intros [= <-]. eauto.
    + intros f. destruct (_ =? _); [discriminate|]. intros [= <-]. eauto.
    + discriminate.
  - cbn. repeat split; auto; discriminate.
Qed.
